(** * mordred/_base.py: descriptor keys, the molecule variant cache,
      registration and the memoised calculator

    A shallow embedding of [Key], [Descriptor], [Molecule] and [Calculator]
    from [src/mordred/_base.py], and the properties of the evaluation engine
    proved (or refuted) on it.

    Conventions of the embedding:
    - Python dictionaries are [gmap]s; the dictionary returned by a
      [dependencies] property is an association list in iteration order.
    - Objects that the code mutates in place (the RDKit molecules held by a
      [Molecule], the [Calculator] itself) live in explicit state that the
      methods thread through.
    - A raised exception is a value of [exn]; unbounded recursion is the
      outcome [Exhausted] of a fuel-indexed function. *)

From Stdlib Require Import Ascii.
From stdpp Require Import gmap strings list fin_maps sorting pretty.

Local Open Scope Z_scope.
Local Open Scope string_scope.
Local Open Scope list_scope.

(** ** The Python values that occur as constructor arguments

    [None], integers and strings: on these Python's [==] is structural
    equality.  (Booleans and floats are left out: [1 == True == 1.0].) *)

Inductive PyVal :=
| PNone
| PInt (n : Z)
| PStr (s : string).

#[global] Instance PyVal_eq_dec : EqDecision PyVal.
Proof. solve_decision. Defined.

#[global] Instance PyVal_countable : Countable PyVal.
Proof.
  refine (inj_countable'
    (λ v, match v with
          | PNone => inl (inl ())
          | PInt n => inl (inr n)
          | PStr s => inr s
          end)
    (λ x, match x with
          | inl (inl _) => PNone
          | inl (inr n) => PInt n
          | inr s => PStr s
          end) _).
  by intros [].
Defined.

(** A class object is known by its identity ([is] compares identities). *)
Abbreviation Cls := nat.

(** The interpreter's [hash]: on type objects, on argument values, and the
    combination of the element hashes that a tuple's hash is. *)
Class Python := {
  hash_type : Cls → Z;
  hash_val : PyVal → Z;
  hash_tuple : list Z → Z;
  type_name : Cls → string;      (* cls.__name__ *)
}.

(** ** class Key *)

Module Key.

Record t := Key { cls : Cls; args : list PyVal }.

#[global] Instance eq_dec : EqDecision t.
Proof. solve_decision. Defined.

#[global] Instance countable : Countable t.
Proof.
  refine (inj_countable' (λ k, (cls k, args k)) (λ p, Key p.1 p.2) _).
  by intros [].
Defined.

Section methods.
Context `{Python}.

(** [hash((self.cls, self.args))] *)
Definition __hash__ (self : t) : Z :=
  hash_tuple [hash_type (cls self); hash_tuple (hash_val <$> args self)].

(** [self.cls is other.cls and self.args == other.args] *)
Definition __eq__ (self other : t) : bool :=
  bool_decide (cls self = cls other) && bool_decide (args self = args other).

(** [self.cls is not other.cls or self.args != other.args] *)
Definition __ne__ (self other : t) : bool :=
  negb (bool_decide (cls self = cls other))
  || negb (bool_decide (args self = args other)).

(** [self.cls.__name__ + str(hash(tuple(self.args)))] *)
Definition __str__ (self : t) : string :=
  type_name (cls self) +:+ pretty (hash_tuple (hash_val <$> args self)).

(** [descriptor_key]: a key is its own identity. *)
Definition descriptor_key (self : t) : t := self.
End methods.

End Key.

Abbreviation Key := Key.t.

(** ** The RDKit entry points the module calls

    [Chem.AddHs] and [Chem.RemoveHs] return a new molecule; [Chem.Mol] copies
    its argument; [Chem.Kekulize] and [ComputeGasteigerCharges] modify the
    molecule they are given.  Each is known here by what it does to the value
    of a molecule. *)
Class RDKit := {
  Mol : Type;
  Chem_AddHs : Mol → Mol;
  Chem_RemoveHs : Mol → Mol;
  Chem_Kekulize : Mol → Mol;
  ComputeGasteigerCharges : Mol → Mol;
}.

(** ** class Molecule *)

Module Molecule.

(** The key of the variant cache: [(explicitH, kekulize, gasteiger)]. *)
Abbreviation flags := (bool * bool * bool)%type.

(** What a [Molecule] does besides returning: the RDKit calls it makes, on
    which of its molecules, and the cache entries it writes.  Molecules
    that the [Molecule] created are named by their index in its heap. *)
Inductive event :=
| Kekulize_orig                       (* Chem.Kekulize(orig) *)
| AddHs_orig (r : nat)                (* r = Chem.AddHs(self.orig) *)
| RemoveHs_orig (r : nat)             (* r = Chem.RemoveHs(self.orig) *)
| Mol_copy (src r : nat)              (* r = Chem.Mol(src) *)
| Kekulize_at (r : nat)               (* Chem.Kekulize(r) *)
| Gasteiger_at (r : nat)              (* ComputeGasteigerCharges(r) *)
| Store (k : flags) (r : nat).        (* self.cache[k] = r *)

#[global] Instance event_eq_dec : EqDecision event.
Proof. solve_decision. Defined.

Section methods.
Context `{RDKit}.

Record t := Molecule {
  orig : Mol;                        (* self.orig, after canonicalisation *)
  heap : list Mol;                   (* the molecules created so far *)
  cache : gmap flags nat;            (* self.cache: key -> molecule *)
  events : list event;
}.

Definition __init__ (orig : Mol) : t :=
  {| orig := Chem_Kekulize orig; heap := []; cache := ∅;
     events := [Kekulize_orig] |}.

Definition key (explicitH kekulize gasteiger : bool) : flags :=
  (explicitH, kekulize, gasteiger).

(** The value of the molecule at reference [r]. *)
Definition deref (self : t) (r : nat) : Mol :=
  default (orig self) (heap self !! r).

(** A new molecule object with value [v]; its reference is returned. *)
Definition new (v : Mol) (e : nat → event) (self : t) : nat * t :=
  let r := length (heap self) in
  (r, {| orig := orig self; heap := heap self ++ [v];
         cache := cache self; events := events self ++ [e r] |}).

(** An RDKit call that modifies the molecule at [r]. *)
Definition modify (f : Mol → Mol) (r : nat) (e : event) (self : t) : t :=
  {| orig := orig self; heap := alter f r (heap self);
     cache := cache self; events := events self ++ [e] |}.

(** [self.cache[k] = r] *)
Definition store (k : flags) (r : nat) (self : t) : t :=
  {| orig := orig self; heap := heap self;
     cache := <[k := r]> (cache self);
     events := events self ++ [Store k r] |}.

Definition hydration (explicitH : bool) (self : t) : nat * t :=
  let k := key explicitH false false in
  match cache self !! k with
  | Some r => (r, self)
  | None =>
      let '(mol, self) :=
        if explicitH then new (Chem_AddHs (orig self)) AddHs_orig self
        else new (Chem_RemoveHs (orig self)) RemoveHs_orig self in
      (mol, store k mol self)
  end.

Definition kekulize (explicitH : bool) (self : t) : nat * t :=
  let k := key explicitH true false in
  match cache self !! k with
  | Some r => (r, self)
  | None =>
      let '(h, self) := hydration explicitH self in
      let '(mol, self) := new (deref self h) (Mol_copy h) self in
      let self := modify Chem_Kekulize mol (Kekulize_at mol) self in
      (mol, store k mol self)
  end.

Definition gasteiger (explicitH kekulize_ : bool) (self : t) : nat * t :=
  let k := key explicitH kekulize_ true in
  match cache self !! k with
  | Some r => (r, self)
  | None =>
      let '(mol, self) :=
        if kekulize_ then kekulize explicitH self
        else hydration explicitH self in
      let self := modify ComputeGasteigerCharges mol (Gasteiger_at mol) self in
      (mol, store k mol self)
  end.

Definition get (explicitH kekulize_ gasteiger_ : bool) (self : t) : nat * t :=
  let k := key explicitH kekulize_ gasteiger_ in
  match cache self !! k with
  | Some r => (r, self)
  | None =>
      if gasteiger_ then gasteiger explicitH kekulize_ self
      else if kekulize_ then kekulize explicitH self
      else hydration explicitH self
  end.

(** The keys written to the cache, in the order they were written. *)
Definition stored (evs : list event) : list flags :=
  omap (λ ev, match ev with Store k _ => Some k | _ => None end) evs.



(** A sequence of requests on one [Molecule]. *)
Definition gets (reqs : list flags) (self : t) : t :=
  foldl (λ m '(e, k, g), (get e k g m).2) self reqs.
End methods.

Arguments t {_}.

End Molecule.

(** ** Exceptions and outcomes *)

(** The three [ValueError]s of the module, by their message. *)
Inductive message :=
| NotDescriptor          (* '{!r} is not descriptor' *)
| CannotCreate           (* 'cannot create {!r} by {!r}' *)
| KeyNotProvided.        (* '[bug] descriptor key not provided: {!r}' *)

Inductive exn :=
| ValueError (m : message)
| TypeError
| AttributeError
| IndexError
| StopIteration
| Error (what : string).   (* any other exception, raised by a descriptor *)

#[global] Instance message_eq_dec : EqDecision message.
Proof. solve_decision. Defined.

#[global] Instance exn_eq_dec : EqDecision exn.
Proof. solve_decision. Defined.

(** A call returns, raises, or recurses beyond every bound. *)
Inductive outcome (A : Type) :=
| Ok (a : A)
| Raise (e : exn)
| Exhausted.

Arguments Ok {A} a.
Arguments Raise {A} e.
Arguments Exhausted {A}.

(** Code that reads and writes a state [S] and may raise. *)
Definition M (S A : Type) : Type := S → outcome A * S.

#[global] Instance M_ret {S} : MRet (M S) := λ A a s, (Ok a, s).

#[global] Instance M_bind {S} : MBind (M S) := λ A B f m s,
  match m s with
  | (Ok a, s') => f a s'
  | (Raise e, s') => (Raise e, s')
  | (Exhausted, s') => (Exhausted, s')
  end.

Definition raise {S A} (e : exn) : M S A := λ s, (Raise e, s).
Definition exhausted {S A} : M S A := λ s, (Exhausted, s).
Definition get_state {S} : M S S := λ s, (Ok s, s).
Definition modify_state {S} (f : S → S) : M S () := λ s, (Ok (), f s).

Section loops.
Context {S A B : Type}.

(** [for x in xs: body(x)] *)
Definition for_each (body : A → M S ()) : list A → M S () :=
  fix go xs :=
    match xs with
    | [] => mret ()
    | x :: xs => body x ;; go xs
    end.

(** [[body(x) for x in xs]] *)
Definition for_collect (body : A → M S B) : list A → M S (list B) :=
  fix go xs :=
    match xs with
    | [] => mret []
    | x :: xs => y ← body x; ys ← go xs; mret (y :: ys)
    end.
End loops.

(** ** Objects *)

(** What a name of a module is bound to: a class, or something that is not a
    class (a function, a constant, an imported module). *)
Inductive attr :=
| AType (c : Cls)
| ANotType.

#[global] Instance attr_eq_dec : EqDecision attr.
Proof. solve_decision. Defined.

(** What [register] can be handed, and what a constructor can be called
    with.  An object made by calling a class on arguments, [cls( *args )],
    keeps the class and the arguments, which are objects of any kind. *)
#[warnings="-register-all"]
Inductive pyobj :=
| OVal (v : PyVal)                       (* None, a number, a string *)
| OInst (i : Instance)                   (* an object of some class *)
| OType (c : Cls)                        (* a class *)
| OModule (ns : list (string * attr))    (* a module: its names, as defined *)
| OTuple (xs : list pyobj)
| OList (xs : list pyobj)                (* a list, or another iterable *)
with Instance :=
| Inst (i_cls : Cls) (i_args : list pyobj).

Definition i_cls (i : Instance) : Cls := match i with Inst c _ => c end.
Definition i_args (i : Instance) : list pyobj := match i with Inst _ args => args end.

(** A value of a [dependencies] dictionary that is not [None]. *)
Inductive Dep :=
| DInst (i : Instance)
| DKey (k : Key).

(** ** Classes

    A subclass of [Descriptor] is given by its class attributes, by which
    arguments its constructor takes, and by its methods and properties as
    functions of the constructor arguments of the instance.  [c_preset] and
    [c_descriptor_key] are [None] when the class inherits them from
    [Descriptor]. *)
Record ClassDef `{RDKit} := {
  c_explicit_hydrogens : bool;
  c_gasteiger_charges : bool;
  c_kekulize : bool;
  c_init : list pyobj → bool;            (* False: TypeError *)
  c_preset : option (list pyobj);
  c_dependencies : list pyobj → option (list (string * option Dep));
  c_descriptor_key : option (list pyobj → option Key);
  c_calculate : list pyobj → Mol → list (string * PyVal) → exn + PyVal;
}.

(** A class is a subclass of [Descriptor] or it is not; of the latter only
    the arguments its constructor takes matter. *)
Inductive PyType `{RDKit} :=
| DescriptorType (d : ClassDef)
| PlainType (init : list pyobj → bool).

(** The classes of the program. *)
Abbreviation ClassTable := (Cls → PyType).

Module Descriptor.
Section methods.
Context `{RDKit} (ct : ClassTable).

(** The class attributes and methods that [Descriptor] itself defines.
    [calculate] is abstract: [Descriptor], and a subclass that does not
    define [calculate], cannot be instantiated, [cls()] raises [TypeError]
    whatever the arguments, so that the body of [calculate] is never run. *)
Definition base : ClassDef :=
  {| c_explicit_hydrogens := true;
     c_gasteiger_charges := false;
     c_kekulize := false;
     c_init := λ _, false;
     c_preset := None;
     c_dependencies := λ _, None;
     c_descriptor_key := None;
     c_calculate := λ _ _ _, inr PNone |}.

(** [cls( *args )] *)
Definition instantiate {S} (cls : Cls) (args : list pyobj) : M S Instance :=
  let accepts := match ct cls with
                 | DescriptorType d => c_init d args
                 | PlainType init => init args
                 end in
  if accepts then mret (Inst cls args) else raise TypeError.

(** [cls.preset()], run to its end: [yield cls()] unless overridden. *)
Definition preset {S} (cls : Cls) : M S (list pyobj) :=
  match ct cls with
  | DescriptorType d =>
      match c_preset d with
      | Some ds => mret ds
      | None => d ← instantiate cls []; mret [OInst d]
      end
  | PlainType _ => raise AttributeError
  end.

(** [cls.make_key( *args )] *)
Definition make_key (cls : Cls) (args : list PyVal) : Key := Key.Key cls args.

(** The class of an instance when [isinstance(self, Descriptor)]. *)
Definition class_of (self : Instance) : option ClassDef :=
  match ct (i_cls self) with
  | DescriptorType d => Some d
  | PlainType _ => None
  end.

(** [self.descriptor_key]: [self.make_key()] unless overridden. *)
Definition descriptor_key (d : ClassDef) (self : Instance) : option Key :=
  match c_descriptor_key d with
  | None => Some (make_key (i_cls self) [])
  | Some f => f (i_args self)
  end.

(** [self.descriptor_name]: [str(self.descriptor_key)] *)
Definition descriptor_name `{Python} (d : ClassDef) (self : Instance) : string :=
  match descriptor_key d self with
  | Some k => Key.__str__ k
  | None => "None"
  end.

(** [self.dependencies or {}] *)
Definition dependencies (d : ClassDef) (self : Instance)
  : list (string * option Dep) :=
  default [] (c_dependencies d (i_args self)).
End methods.
End Descriptor.

(** [Key.create]: a [TypeError] of the constructor becomes a [ValueError]. *)
Definition Key_create `{RDKit} {S} (ct : ClassTable) (self : Key) : M S Instance :=
  λ s, match Descriptor.instantiate ct (Key.cls self) (OVal <$> Key.args self) s with
       | (Raise TypeError, s') => (Raise (ValueError CannotCreate), s')
       | r => r
       end.

(** ** class Calculator *)

Module Calculator.

(** What a pass does besides returning: the [calculate] methods it calls and
    the entries it writes to its result cache. *)
Inductive event `{RDKit} :=
| Invoke (desc : Instance) (mol : Mol) (kwargs : list (string * PyVal))
| Store (k : Key) (r : PyVal).           (* cache[k] = r *)

Section methods.
Context `{RDKit} `{Python} (ct : ClassTable).

Record t := Calculator {
  descriptors : list Instance;
  explicitH : bool;
  gasteiger : bool;
  kekulize : bool;
  molecule : option Molecule.t;          (* self.molecule, once assigned *)
}.

(** [self.descriptors.append(desc)] and the three flags *)
Definition append (d : ClassDef) (desc : Instance) (self : t) : t :=
  {| descriptors := descriptors self ++ [desc];
     explicitH := if c_explicit_hydrogens d then true else explicitH self;
     gasteiger := if c_gasteiger_charges d then true else gasteiger self;
     kekulize := if c_kekulize d then true else kekulize self;
     molecule := molecule self |}.

Definition _register_one (desc : pyobj) : M t () :=
  match desc with
  | OInst i =>
      match Descriptor.class_of ct i with
      | Some d => modify_state (append d i)
      | None => raise (ValueError NotDescriptor)
      end
  | _ => raise (ValueError NotDescriptor)
  end.

(** [hasattr(desc, '__iter__')] (strings are iterable, as in Python 3) *)
Definition hasattr_iter (desc : pyobj) : bool :=
  match desc with
  | OVal (PStr _) | OTuple _ | OList _ => true
  | _ => false
  end.

(** [dir(module)]: the names of the module, sorted *)
Definition dir (ns : list (string * attr)) : list string :=
  merge_sort String.le (remove_dups ns.*1).

(** [getattr(module, name)]: the last binding of the name *)
Definition getattr (ns : list (string * attr)) (name : string) : option attr :=
  (list_to_map (reverse ns) : gmap string attr) !! name.

(** [name[:1] == '_'] *)
Definition underscore (name : string) : bool :=
  match name with
  | String c _ => bool_decide (c = "_"%char)
  | _ => false
  end.

(** [issubclass(d, Descriptor)] *)
Definition issubclass_Descriptor (d : attr) : M t bool :=
  match d with
  | AType c =>
      match ct c with
      | DescriptorType _ => mret true
      | PlainType _ => mret false
      end
  | ANotType => raise TypeError
  end.

(** The branch [isinstance(desc, type)] of [register]. *)
Definition register_type (cls : Cls) : M t () :=
  ds ← Descriptor.preset ct cls; for_each _register_one ds.

(** [if issubclass(d, Descriptor): self.register(d)].  The class goes through
    [self.register(d)], which takes the branch above: a class has no
    [__iter__] and is a [type]. *)
Definition register_attr (d : attr) : M t () :=
  b ← issubclass_Descriptor d;
  match b, d with
  | true, AType cls => register_type cls
  | _, _ => mret ()
  end.

(** The branch [isinstance(desc, ModuleType)] of [register]. *)
Definition register_module (ns : list (string * attr)) : M t () :=
  let body (name : string) : M t () :=
    if underscore name then mret ()
    else
      match getattr ns name with
      | Some d => register_attr d
      | None => raise AttributeError
      end in
  for_each body (dir ns).

(** One round of the loop of [register]. *)
Fixpoint register1 (desc : pyobj) : M t () :=
  if negb (hasattr_iter desc) then
    match desc with
    | OType cls => register_type cls
    | OModule ns => register_module ns
    | _ => _register_one desc
    end
  else
    match desc with
    | OTuple [] => raise IndexError                      (* desc[0] *)
    | OTuple (OType cls :: rest) =>                      (* desc[0]( *desc[1:] ) *)
        d ← Descriptor.instantiate ct cls rest; _register_one (OInst d)
    | OTuple xs | OList xs => for_each register1 xs
    | OVal (PStr s) =>
        (* each character is again a string to iterate over *)
        if bool_decide (s = "") then mret () else exhausted
    | _ => mret ()
    end.

(** [register( *descs )] *)
Definition register (descs : list pyobj) : M t () := for_each register1 descs.

(** [Calculator( *descs )] *)
Definition __init__ (descs : list pyobj) : outcome () * t :=
  register descs
    {| descriptors := []; explicitH := false; gasteiger := false;
       kekulize := false; molecule := None |}.

(** *** Evaluation *)

(** The state of a pass: the calculator, whose [molecule] attribute the pass
    reads and whose [Molecule] it fills; the result cache of the pass; what
    it has done so far. *)
Record Env := {
  calc : t;
  cache : gmap Key PyVal;
  trace : list event;
}.

Definition log (e : event) : M Env () :=
  modify_state (λ s, {| calc := calc s; cache := cache s; trace := trace s ++ [e] |}).

(** [cache[k] = r] *)
Definition store (k : Key) (r : PyVal) : M Env () :=
  modify_state (λ s, {| calc := calc s; cache := <[k := r]> (cache s);
                        trace := trace s ++ [Store k r] |}).

(** [self.molecule.get(explicitH=..., gasteiger=..., kekulize=...)]: the
    molecule is handed to [calculate] as the value it has at that time. *)
Definition molecule_get (d : ClassDef) : M Env Mol := λ s,
  match molecule (calc s) with
  | None => (Raise AttributeError, s)
  | Some m =>
      let '(r, m') := Molecule.get (c_explicit_hydrogens d) (c_kekulize d)
                                   (c_gasteiger_charges d) m in
      (Ok (Molecule.deref m' r),
       {| calc := {| descriptors := descriptors (calc s);
                     explicitH := explicitH (calc s);
                     gasteiger := gasteiger (calc s);
                     kekulize := kekulize (calc s);
                     molecule := Some m' |};
          cache := cache s; trace := trace s |})
  end.

(** The class of [desc], or [AttributeError] when it is no descriptor. *)
Definition descriptor_class (desc : Instance) : M Env ClassDef :=
  match Descriptor.class_of ct desc with
  | Some d => mret d
  | None => raise AttributeError
  end.

(** [desc.descriptor_key], of a descriptor or of a key *)
Definition key_of (desc : Dep) : M Env (option Key) :=
  match desc with
  | DKey k => mret (Some (Key.descriptor_key k))
  | DInst i => d ← descriptor_class i; mret (Descriptor.descriptor_key d i)
  end.

Definition lift {A} (r : exn + A) : M Env A :=
  match r with
  | inl e => raise e
  | inr a => mret a
  end.

Fixpoint _calculate (fuel : nat) (desc : Dep) : M Env PyVal :=
  match fuel with
  | O => exhausted
  | S fuel =>
      k ← key_of desc;
      s ← get_state;
      match k ≫= (cache s !!.) with
      | Some r => mret r
      | None =>
          desc ← match desc with
                 | DKey k => Key_create ct k
                 | DInst i => mret i
                 end;
          d ← descriptor_class desc;
          args ← for_collect (λ '(name, dep),
                    match dep with
                    | Some dep => r ← _calculate fuel dep; mret (name, r)
                    | None => mret (name, PNone)
                    end) (Descriptor.dependencies d desc);
          mol ← molecule_get d;
          log (Invoke desc mol args);;
          r ← lift (c_calculate d (i_args desc) mol args);
          match Descriptor.descriptor_key d desc with
          | None => raise (ValueError KeyNotProvided)
          | Some k => store k r;; mret r
          end
      end
  end.

(** The generator that [__call__] returns: the descriptors it has not
    reached yet, and the result cache of the pass. *)
Record generator := {
  pending : list Instance;
  g_cache : gmap Key PyVal;
  g_trace : list event;
}.

Definition __call__ (mol : Mol) (self : t) : generator * t :=
  ({| pending := descriptors self; g_cache := ∅; g_trace := [] |},
   {| descriptors := descriptors self; explicitH := explicitH self;
      gasteiger := gasteiger self; kekulize := kekulize self;
      molecule := Some (Molecule.__init__ mol) |}).

(** [next(g)]: the pair [(desc.descriptor_name, self._calculate(desc, cache))]
    of the next descriptor.  A generator that raised is finished. *)
Definition next (fuel : nat) (g : generator) (self : t)
  : outcome (string * PyVal) * generator * t :=
  match pending g with
  | [] => (Raise StopIteration, g, self)
  | desc :: rest =>
      let pair : M Env (string * PyVal) :=
        d ← descriptor_class desc;
        r ← _calculate fuel (DInst desc);
        mret (Descriptor.descriptor_name d desc, r) in
      match pair {| calc := self; cache := g_cache g; trace := g_trace g |} with
      | (Ok p, s) =>
          (Ok p, {| pending := rest; g_cache := cache s; g_trace := trace s |},
           calc s)
      | (r, s) =>
          (r, {| pending := []; g_cache := cache s; g_trace := trace s |},
           calc s)
      end
  end.

(** [n] calls of [next], stopping at the first that raises: the pairs
    yielded and how the last call ended. *)
Fixpoint consume (fuel n : nat) (g : generator) (self : t)
  : list (string * PyVal) * outcome () * generator * t :=
  match n with
  | O => ([], Ok (), g, self)
  | S n =>
      match next fuel g self with
      | (Ok p, g, self) =>
          let '(ps, r, g, self) := consume fuel n g self in (p :: ps, r, g, self)
      | (Raise e, g, self) => ([], Raise e, g, self)
      | (Exhausted, g, self) => ([], Exhausted, g, self)
      end
  end.
End methods.

Arguments t {_}.
Arguments Env {_}.
Arguments generator {_}.

End Calculator.

(** ** The registration protocol, as the specification words it

    Section 4.2 of the specification lists what [register] accepts: (a) a
    descriptor instance, registered directly; (b) a descriptor type, expanded
    through [preset()]; (c) a provider group, every descriptor type of which
    is registered; (d) a [(type, *args)] pair, instantiated and registered;
    (e) a sequence of these, flattened in order.  [resolve] gives the
    instances an item stands for, up to the first one that cannot be
    registered, and a verdict: the item resolves, or it is rejected because a
    leaf is no descriptor instance, or the protocol does not say (a class
    that is no descriptor type or cannot be instantiated, a name of a
    provider group that is bound to no class, an empty tuple, a string that
    is not empty). *)

Module Registry.

Inductive verdict := Resolved | Rejected | Unspecified.

Section spec.
Context `{RDKit} (ct : ClassTable).

Definition is_descriptor (i : Instance) : bool :=
  bool_decide (is_Some (Descriptor.class_of ct i)).

(** One after the other, up to the first that does not resolve. *)
Definition in_order (rs : list (list Instance * verdict)) : list Instance * verdict :=
  foldr (λ r acc, match r.2 with
                  | Resolved => (r.1 ++ acc.1, acc.2)
                  | v => (r.1, v)
                  end) ([], Resolved) rs.

(** (a) an instance *)
Definition resolve_instance (o : pyobj) : list Instance * verdict :=
  match o with
  | OInst i => if is_descriptor i then ([i], Resolved) else ([], Rejected)
  | _ => ([], Rejected)
  end.

(** (b) a descriptor type *)
Definition resolve_type (cls : Cls) : list Instance * verdict :=
  match ct cls with
  | DescriptorType d =>
      match c_preset d with
      | Some ds => in_order (resolve_instance <$> ds)
      | None => if c_init d [] then ([Inst cls []], Resolved) else ([], Unspecified)
      end
  | PlainType _ => ([], Unspecified)
  end.

(** (c) a provider group: its descriptor types, by name *)
Definition resolve_module (ns : list (string * attr)) : list Instance * verdict :=
  in_order
    ((λ name, match Calculator.getattr ns name with
              | Some (AType cls) =>
                  match ct cls with
                  | DescriptorType _ => resolve_type cls
                  | PlainType _ => ([], Resolved)
                  end
              | _ => ([], Unspecified)
              end)
     <$> filter (λ name, ¬ Calculator.underscore name) (Calculator.dir ns)).

(** (d) a type with constructor arguments *)
Definition resolve_call (cls : Cls) (args : list pyobj) : list Instance * verdict :=
  match ct cls with
  | DescriptorType d =>
      if c_init d args then ([Inst cls args], Resolved) else ([], Unspecified)
  | PlainType init =>
      if init args then ([], Rejected) else ([], Unspecified)
  end.

Fixpoint resolve (o : pyobj) : list Instance * verdict :=
  match o with
  | OInst _ => resolve_instance o
  | OType cls => resolve_type cls
  | OModule ns => resolve_module ns
  | OTuple [] => ([], Unspecified)
  | OTuple (OType cls :: rest) => resolve_call cls rest
  | OTuple xs | OList xs => in_order (map resolve xs)              (* (e) *)
  | OVal (PStr s) =>                     (* a sequence of characters *)
      if bool_decide (s = "") then ([], Resolved) else ([], Unspecified)
  | OVal _ => ([], Rejected)
  end.

Definition resolve_all (descs : list pyobj) : list Instance * verdict :=
  in_order (map resolve descs).
End spec.

End Registry.

(** ** Concrete instances, for running the code

    A symbolic RDKit: a molecule is the raw input it came from and the
    transformations applied to it, so that distinct histories are distinct
    values. *)
Module Fixtures.

Inductive sym :=
| Raw (n : nat)
| AddHs (m : sym)
| RemoveHs (m : sym)
| Kekulized (m : sym)
| Charged (m : sym).

#[global] Instance sym_eq_dec : EqDecision sym.
Proof. solve_decision. Defined.

Definition symbolic : RDKit :=
  {| Mol := sym; Chem_AddHs := AddHs; Chem_RemoveHs := RemoveHs;
     Chem_Kekulize := Kekulized; ComputeGasteigerCharges := Charged |}.

(** A stand-in for the interpreter's hash. *)
Definition python : Python :=
  {| hash_type := Z.of_nat;
     hash_val := λ v, match v with
                      | PNone => 0
                      | PInt n => n
                      | PStr s => Z.of_nat (String.length s)
                      end;
     hash_tuple := foldr (λ h acc, h + 31 * acc) 7;
     type_name := λ c, "T" +:+ pretty c |}.

(** A descriptor class that takes any constructor arguments and inherits
    everything else from [Descriptor]. *)
Definition parametrised : @ClassDef symbolic :=
  {| c_explicit_hydrogens := true;
     c_gasteiger_charges := false;
     c_kekulize := false;
     c_init := λ _, true;
     c_preset := None;
     c_dependencies := λ _, None;
     c_descriptor_key := None;
     c_calculate := λ args _ _,
       match args with
       | OVal v :: _ => inr v
       | _ => inr PNone
       end |}.

(** A descriptor class that defines [calculate] and inherits everything else
    from [Descriptor]. *)
Definition concrete : @ClassDef symbolic :=
  {| c_explicit_hydrogens := true;
     c_gasteiger_charges := false;
     c_kekulize := false;
     c_init := λ args, match args with [] => true | _ => false end;
     c_preset := None;
     c_dependencies := λ _, None;
     c_descriptor_key := None;
     c_calculate := λ _ _ _, inr PNone |}.

(** Classes to register: [0] defines [calculate] and nothing else, [1]
    takes arguments, the [preset()] of [2] yields two instances of [1], and
    every other class is no subclass of [Descriptor]. *)
Definition registry : Cls → @PyType symbolic := λ cls,
  match cls with
  | 0%nat => DescriptorType concrete
  | 1%nat => DescriptorType parametrised
  | 2%nat =>
      DescriptorType
        {| c_explicit_hydrogens := false;
           c_gasteiger_charges := true;
           c_kekulize := true;
           c_init := λ args, match args with [] => true | _ => false end;
           c_preset := Some [OInst (Inst 1 [OVal (PInt 7)]); OInst (Inst 1 [OVal (PInt 8)])];
           c_dependencies := λ _, None;
           c_descriptor_key := None;
           c_calculate := λ _ _ _, inr PNone |}
  | _ => PlainType (λ _, true)
  end.

(** [[TypeX, (TypeY, 1, 2), providerGroupM, [inst1, inst2]]] *)
Definition nested : list pyobj :=
  [OList
     [OType 0;
      OTuple [OType 1; OVal (PInt 1); OVal (PInt 2)];
      OModule [("Zeta", AType 2); ("_hidden", AType 0);
               ("Helper", AType 9); ("Alpha", AType 0)];
      OList [OInst (Inst 1 [OVal (PInt 3)]); OInst (Inst 0 [])]]].

(** A descriptor class without constructor arguments, given by its
    dependencies and its result. *)
Definition descriptor (deps : list (string * option Dep))
    (calc : list (string * PyVal) → exn + PyVal) : @ClassDef symbolic :=
  {| c_explicit_hydrogens := true;
     c_gasteiger_charges := false;
     c_kekulize := false;
     c_init := λ args, match args with [] => true | _ => false end;
     c_preset := None;
     c_dependencies := λ _, Some deps;
     c_descriptor_key := None;
     c_calculate := λ _ _ kwargs, calc kwargs |}.

(** The value passed as [a], plus [n]. *)
Definition plus (n : Z) (kwargs : list (string * PyVal)) : exn + PyVal :=
  match kwargs with
  | [(_, PInt a)] => inr (PInt (a + n))
  | _ => inl TypeError
  end.

(** [B] (class 1) and [C] (class 2) both depend on [A] (class 0), one through
    an instance and one through a key. *)
Definition shared : Cls → @PyType symbolic := λ cls,
  match cls with
  | 0%nat => DescriptorType (descriptor [] (λ _, inr (PInt 42)))
  | 1%nat => DescriptorType (descriptor [("a", Some (DInst (Inst 0 [])))] (plus 1))
  | 2%nat => DescriptorType (descriptor [("a", Some (DKey (Key.Key 0 [])))] (plus 2))
  | _ => PlainType (λ _, true)
  end.

(** [B] and [C] both depend on [A.make_key(1)], and [A] takes a constructor
    argument but inherits [descriptor_key]. *)
Definition unkeyed : Cls → @PyType symbolic := λ cls,
  match cls with
  | 0%nat => DescriptorType parametrised
  | 1%nat => DescriptorType (descriptor [("a", Some (DKey (Key.Key 0 [PInt 1])))] (plus 1))
  | 2%nat => DescriptorType (descriptor [("a", Some (DKey (Key.Key 0 [PInt 1])))] (plus 2))
  | _ => PlainType (λ _, true)
  end.

(** [A] (class 0) depends on [B] (class 1) and [B] on [A]. *)
Definition cyclic : Cls → @PyType symbolic := λ cls,
  match cls with
  | 0%nat => DescriptorType (descriptor [("b", Some (DKey (Key.Key 1 [])))] (plus 1))
  | 1%nat => DescriptorType (descriptor [("a", Some (DInst (Inst 0 [])))] (plus 1))
  | _ => PlainType (λ _, true)
  end.

(** The descriptors of [cyclic] that are in the cycle. *)
Definition on_cycle (dep : Dep) : Prop :=
  dep = DInst (Inst 0 []) ∨ dep = DKey (Key.Key 1 []).

(** [A] (class 0) succeeds, [F] (class 1) depends on [A] and raises, [G]
    (class 2) depends on [F]. *)
Definition failing : Cls → @PyType symbolic := λ cls,
  match cls with
  | 0%nat => DescriptorType (descriptor [] (λ _, inr (PInt 42)))
  | 1%nat => DescriptorType (descriptor [("a", Some (DInst (Inst 0 [])))]
                               (λ _, inl (Error "no rings")))
  | 2%nat => DescriptorType (descriptor [("f", Some (DInst (Inst 1 [])))] (plus 1))
  | _ => PlainType (λ _, true)
  end.

(** The raw input a symbolic molecule was derived from. *)
Fixpoint raw_of (m : sym) : Z :=
  match m with
  | Raw n => Z.of_nat n
  | AddHs m | RemoveHs m | Kekulized m | Charged m => raw_of m
  end.

#[local] Existing Instance symbolic.

(** One descriptor class, whose result tells which input it was computed
    from. *)
Definition probing : @ClassDef symbolic :=
  {| c_explicit_hydrogens := true;
     c_gasteiger_charges := false;
     c_kekulize := false;
     c_init := λ args, match args with [] => true | _ => false end;
     c_preset := None;
     c_dependencies := λ _, None;
     c_descriptor_key := None;
     c_calculate := λ _ mol _, inr (PInt (raw_of mol)) |}.

Definition probe : Cls → @PyType symbolic := λ cls,
  match cls with
  | 0%nat => DescriptorType probing
  | _ => PlainType (λ _, true)
  end.

(** A rank for [shared]: [A] below [B] and [C]. *)
Definition shared_rank (id : option Key) : nat :=
  match id with
  | Some k => if bool_decide (Key.cls k = 0%nat) then 0 else 1
  | None => 0
  end.

End Fixtures.

(** ** Vocabulary of the statements *)


Module VariantCache.
Section vocabulary.
Context `{RDKit}.
Import Molecule.




End vocabulary.
End VariantCache.

Module Registration.
Section vocabulary.
Context `{RDKit} (ct : ClassTable).
Import Calculator Registry.

(** Registering instances one by one. *)
Definition add (c : Calculator.t) (i : Instance) : Calculator.t :=
  match Descriptor.class_of ct i with
  | Some d => append d i c
  | None => c
  end.

Definition adds (l : list Instance) (c : Calculator.t) : Calculator.t :=
  foldl add c l.

(** A registration that did not succeed and did not raise the [ValueError]
    of [_register_one]: it raised something else, or recursed without
    bound. *)
Definition fails_otherwise (r : outcome ()) : Prop :=
  r ≠ Ok () ∧ r ≠ Raise (ValueError NotDescriptor).

(** The code [run] does what the protocol says of an item resolved to [r];
    where the protocol does not say, it fails otherwise.  In each case the
    instances before the failing leaf are registered. *)
Definition agrees (r : list Instance * verdict) (run : M Calculator.t ()) : Prop :=
  Forall (λ i, is_descriptor ct i) r.1
  ∧ ∀ c, match r.2 with
         | Resolved => run c = (Ok (), adds r.1 c)
         | Rejected => run c = (Raise (ValueError NotDescriptor), adds r.1 c)
         | Unspecified => fails_otherwise (run c).1 ∧ (run c).2 = adds r.1 c
         end.





End vocabulary.
End Registration.

Module Pass.
Section vocabulary.
Context `{RDKit} (ct : ClassTable).
Import Calculator.

(** The descriptors whose [calculate] was called, in order. *)
Definition invoked (tr : list event) : list Instance :=
  omap (λ ev, match ev with Invoke i _ _ => Some i | _ => None end) tr.

(** The identity of a descriptor instance: its [descriptor_key]. *)
Definition identity (i : Instance) : option Key :=
  Descriptor.class_of ct i ≫= λ d, Descriptor.descriptor_key d i.

Definition identities (tr : list event) : list (option Key) :=
  identity <$> invoked tr.

(** The key under which [_calculate] looks a dependency up. *)
Definition lookup_key (dep : Dep) : option Key :=
  match dep with
  | DKey k => Some k
  | DInst i => identity i
  end.

(** The descriptor that [_calculate] works on: the dependency itself, or
    what its key creates. *)
Definition target (dep : Dep) : Instance :=
  match dep with
  | DKey k => Inst (Key.cls k) (OVal <$> Key.args k)
  | DInst i => i
  end.

(** The cache after the stores of a trace. *)
Definition cache_of (tr : list event) (c : gmap Key PyVal) : gmap Key PyVal :=
  foldl (λ c ev, match ev with Store k r => <[k := r]> c | _ => c end) c tr.

(** The dependencies that an instance declares. *)
Definition declared (i : Instance) : list (string * option Dep) :=
  match Descriptor.class_of ct i with
  | Some d => Descriptor.dependencies d i
  | None => []
  end.

(** A key names the descriptor it creates: that descriptor's
    [descriptor_key] is the key. *)
Definition consistent (k : Key) : Prop :=
  ∀ d, Descriptor.class_of ct (target (DKey k)) = Some d →
       Descriptor.descriptor_key d (target (DKey k)) = Some k.

(** Every key that a descriptor declares as a dependency is consistent. *)
Definition consistent_keys : Prop :=
  ∀ i name k, (name, Some (DKey k)) ∈ declared i → consistent k.

(** The dependency declarations go down along a rank of the identities. *)
Definition acyclic (rank : option Key → nat) : Prop :=
  ∀ (i : Instance) name dep,
    (name, Some dep) ∈ declared i →
    (rank (lookup_key dep) < rank (identity i))%nat.

(** A keyword argument is the cached value of the dependency declared under
    its name, or [None] where [None] is declared. *)
Definition receives (c : gmap Key PyVal) (decl : string * option Dep)
    (kw : string * PyVal) : Prop :=
  decl.1 = kw.1
  ∧ match decl.2 with
    | None => kw.2 = PNone
    | Some dep => ∃ k, lookup_key dep = Some k ∧ c !! k = Some kw.2
    end.

(** The keyword arguments a descriptor was called with are the cached values
    of its dependencies. *)
Definition received (c : gmap Key PyVal) (i : Instance)
    (kwargs : list (string * PyVal)) : Prop :=
  Forall2 (receives c) (declared i) kwargs.

(** The loop of [_calculate] over the dependencies. *)
Definition resolve_deps (fuel : nat) (deps : list (string * option Dep))
  : M Env (list (string * PyVal)) :=
  for_collect (λ '(name, dep),
     match dep with
     | Some dep => r ← _calculate ct fuel dep; mret (name, r)
     | None => mret (name, PNone)
     end) deps.

(** What [_calculate] does once the arguments are there. *)
Definition finish (d : ClassDef) (desc : Instance) (args : list (string * PyVal))
  : M Env PyVal :=
  mol ← molecule_get d;
  log (Invoke desc mol args);;
  r ← lift (c_calculate d (i_args desc) mol args);
  match Descriptor.descriptor_key d desc with
  | None => raise (ValueError KeyNotProvided)
  | Some k => store k r;; mret r
  end.

(** How a resolution ends whose last act was this call of [calculate]. *)
Definition failure (d : ClassDef) (i : Instance) (mol : Mol)
    (kwargs : list (string * PyVal)) : exn :=
  match c_calculate d (i_args i) mol kwargs with
  | inl e => e
  | inr _ => ValueError KeyNotProvided
  end.

(** A piece of a pass from [s] to [s'] that did [new]. *)
Record run (s : Env) (new : list event) (s' : Env) : Prop := {
  run_trace : trace s' = trace s ++ new;
  run_cache : cache s' = cache_of new (cache s);
  run_descriptors : descriptors (calc s') = descriptors (calc s);
  run_explicitH : explicitH (calc s') = explicitH (calc s);
  run_gasteiger : gasteiger (calc s') = gasteiger (calc s);
  run_kekulize : kekulize (calc s') = kekulize (calc s);
  run_molecule : is_Some (molecule (calc s)) → is_Some (molecule (calc s'));
}.

(** A piece of a pass whose last act was a call of [calculate] ended with
    what that call raised. *)
Definition settled {A} (new : list event) (r : outcome A) : Prop :=
  ∀ tr i mol kwargs, new = tr ++ [Invoke i mol kwargs] →
    ∃ d, Descriptor.class_of ct i = Some d ∧ r = Raise (failure d i mol kwargs).

(** A call of [calculate] that raised was the last thing done, and what it
    raised is the outcome. *)
Definition aborting {A} (new : list event) (r : outcome A) : Prop :=
  ∀ tr i mol kwargs tr' d e,
    new = tr ++ Invoke i mol kwargs :: tr' →
    Descriptor.class_of ct i = Some d →
    c_calculate d (i_args i) mol kwargs = inl e →
    tr' = [] ∧ r = Raise e.

(** Every entry written to the cache is the value that the call of
    [calculate] just before it returned, under the key of the descriptor
    that was called. *)
Definition earned (new : list event) : Prop :=
  ∀ tr k v tr',
    new = tr ++ Store k v :: tr' →
    ∃ tr0 i mol kwargs d,
      tr = tr0 ++ [Invoke i mol kwargs]
      ∧ Descriptor.class_of ct i = Some d
      ∧ Descriptor.descriptor_key d i = Some k
      ∧ c_calculate d (i_args i) mol kwargs = inr v.

(** A piece of a pass from [s] to [s'] that ended with [r]. *)
Definition lawful {A} (s : Env) (r : outcome A) (s' : Env) : Prop :=
  ∃ new, run s new s' ∧ aborting new r ∧ earned new.

(** The state of a pass as [_calculate] sees it. *)
Definition env_of (g : generator) (self : Calculator.t) : Env :=
  {| calc := self; cache := g_cache g; trace := g_trace g |}.

(** A dependency that is a key is a consistent key. *)
Definition dep_ok (dep : Dep) : Prop :=
  match dep with
  | DKey k => consistent k
  | DInst _ => True
  end.

(** A piece of a pass that took the cache from [c] to [c'] computed no
    identity twice and none that was cached; the cache only grew, by the
    identities computed; whoever was called received the cached values. *)
Record once (c : gmap Key PyVal) (new : list event) (c' : gmap Key PyVal) : Prop := {
  once_nodup : NoDup (identities new);
  once_fresh : ∀ k, Some k ∈ identities new → c !! k = None;
  once_sub : c ⊆ c';
  once_dom : ∀ k, c !! k = None → is_Some (c' !! k) → Some k ∈ identities new;
  once_received : ∀ i mol kw, Invoke i mol kw ∈ new → received c' i kw;
}.

(** Every identity computed is in the cache. *)
Definition complete (new : list event) (c' : gmap Key PyVal) : Prop :=
  ∀ id, id ∈ identities new → ∃ k, id = Some k ∧ is_Some (c' !! k).

(** What a resolution of [dep] does when keys are consistent and the
    declarations go down along [rank]. *)
Definition memoised (rank : option Key → nat) (fuel : nat) (dep : Dep)
    (s : Env) (res : outcome PyVal * Env) : Prop :=
  ∃ new, trace res.2 = trace s ++ new
    ∧ once (cache s) new (cache res.2)
    ∧ (∀ v, res.1 = Ok v →
         complete new (cache res.2)
         ∧ lookup_key dep ≫= (cache res.2 !!.) = Some v
         ∧ ∀ id, id ∈ identities new → (rank id ≤ rank (lookup_key dep))%nat)
    ∧ ((rank (lookup_key dep) < fuel)%nat → res.1 ≠ Exhausted).

(** The same of the loop over the dependencies [deps] of [i]. *)
Definition memoised_deps (rank : option Key → nat) (fuel : nat) (i : Instance)
    (deps : list (string * option Dep))
    (s : Env) (res : outcome (list (string * PyVal)) * Env) : Prop :=
  ∃ new, trace res.2 = trace s ++ new
    ∧ once (cache s) new (cache res.2)
    ∧ (∀ args, res.1 = Ok args →
         complete new (cache res.2)
         ∧ (∀ id, id ∈ identities new → (rank id < rank (identity i))%nat)
         ∧ Forall2 (receives (cache res.2)) deps args)
    ∧ ((rank (identity i) ≤ fuel)%nat → res.1 ≠ Exhausted).

(** The first thing a resolution of [dep] does, with the cache [c], is to
    resolve [dep']: [dep] is not cached, names a descriptor, and declares
    [dep'] as its first dependency. *)
Definition descends (c : gmap Key PyVal) (dep dep' : Dep) : Prop :=
  lookup_key dep ≫= (c !!.) = None
  ∧ ∃ d name rest,
      ct (i_cls (target dep)) = DescriptorType d
      ∧ c_init d (i_args (target dep)) = true
      ∧ Descriptor.dependencies d (target dep) = (name, Some dep') :: rest.

(** A generator that has computed no identity twice, and that holds every
    identity it computed in its cache as long as it is not finished. *)
Definition memoising (g : generator) : Prop :=
  once ∅ (g_trace g) (g_cache g)
  ∧ (pending g ≠ [] → complete (g_trace g) (g_cache g)).

End vocabulary.
End Pass.

Ltac declared_cases H :=
  unfold Pass.declared in H; cbn in H;
  repeat match type of H with
         | _ ∈ [] => by apply elem_of_nil in H
         | _ ∈ _ :: _ => apply elem_of_cons in H as [H|H]
         end;
  simplify_eq.


(** ** [Descriptor.__call__] *)

(** [next(Calculator(self)(mol))[1]]: a calculator of this one descriptor,
    one pass, its first pair, the value of the pair. *)
Definition Descriptor_call `{RDKit} `{Python} (ct : ClassTable) (fuel : nat)
    (self : Instance) (mol : Mol) : outcome PyVal :=
  match Calculator.__init__ ct [OInst self] with
  | (Ok _, calc) =>
      let '(g, calc) := Calculator.__call__ mol calc in
      match Calculator.next ct fuel g calc with
      | (Ok p, _, _) => Ok p.2
      | (Raise e, _, _) => Raise e
      | (Exhausted, _, _) => Exhausted
      end
  | (Raise e, _) => Raise e
  | (Exhausted, _) => Exhausted
  end.

(** ** Further vocabulary *)

Module Flags.
Section vocabulary.
Context `{RDKit} (ct : ClassTable).

(** A class attribute of the class of an instance ([False] when the object
    is no descriptor). *)
Definition requires (attribute : ClassDef → bool) (i : Instance) : bool :=
  match Descriptor.class_of ct i with
  | Some d => attribute d
  | None => false
  end.

(** The calculator that [Calculator.__init__] starts from. *)
Definition empty : Calculator.t :=
  {| Calculator.descriptors := []; Calculator.explicitH := false;
     Calculator.gasteiger := false; Calculator.kekulize := false;
     Calculator.molecule := None |}.

(** A registration step only appends descriptor instances. *)
Definition grows (run : M Calculator.t ()) : Prop :=
  ∀ c, ∃ l, Forall (λ i, Registry.is_descriptor ct i) l
            ∧ (run c).2 = Registration.adds ct l c.

End vocabulary.
End Flags.

Module Variants.
Section vocabulary.
Context `{RDKit}.
Import Molecule.

(** The value a variant has when each stage is applied once to the stage
    before it. *)
Definition chain (k : flags) (o : Mol) : Mol :=
  let h := if k.1.1 then Chem_AddHs o else Chem_RemoveHs o in
  let b := if k.1.2 then Chem_Kekulize h else h in
  if k.2 then ComputeGasteigerCharges b else b.

(** The keys stored for which a molecule was created. *)
Definition allocating (ks : list flags) : list flags :=
  filter (λ k, k.2 = false) ks.

(** Every cached reference is a molecule of the heap, and a molecule was
    created for every stored key without charges and for no other. *)
Record Bounded (m : Molecule.t) : Prop := {
  bounded_ref : ∀ k r, cache m !! k = Some r → (r < length (heap m))%nat;
  bounded_heap : length (heap m) = length (allocating (stored (events m)));
}.

(** No charged variant is cached, and every cached variant has the value of
    its chain. *)
Record Plain (m : Molecule.t) : Prop := {
  plain_charge : ∀ e k, cache m !! (e, k, true) = None;
  plain_ref : ∀ k r, cache m !! k = Some r → (r < length (heap m))%nat;
  plain_value : ∀ k r, cache m !! k = Some r → heap m !! r = Some (chain k (orig m));
}.

End vocabulary.
End Variants.

Module Naming.
Section vocabulary.
Context `{RDKit} `{Python} (ct : ClassTable).

(** The name under which a registered descriptor is yielded. *)
Definition name_of (i : Instance) : string :=
  match Descriptor.class_of ct i with
  | Some d => Descriptor.descriptor_name d i
  | None => "None"
  end.

End vocabulary.
End Naming.

Module Structure.
Section vocabulary.
Context `{RDKit}.
Import Calculator.

(** [m'] ends as [m] does wherever [m] ends. *)
Definition extends {S A} (m m' : M S A) : Prop :=
  ∀ s, (m s).1 ≠ Exhausted → m' s = m s.

(** The state of a pass with other aggregate flags on the calculator. *)
Definition reflag (e g k : bool) (s : Env) : Env :=
  {| calc := {| descriptors := descriptors (calc s);
                explicitH := e; gasteiger := g; kekulize := k;
                molecule := molecule (calc s) |};
     cache := cache s; trace := trace s |}.

(** [m] does from [f s] what it does from [s]. *)
Definition commutes {A} (f : Env → Env) (m : M Env A) : Prop :=
  ∀ s, m (f s) = ((m s).1, f (m s).2).

(** The molecule that a calculator holds variants of. *)
Definition input_of (self : Calculator.t) : option Mol :=
  Molecule.orig <$> molecule self.

Definition keeps_input {A} (m : M Env A) : Prop :=
  ∀ s, input_of (calc (m s).2) = input_of (calc s).

End vocabulary.
End Structure.

(** ** Further classes to run the code on *)

Module Examples.

#[local] Existing Instance Fixtures.symbolic.

(** A descriptor class whose [descriptor_key] is [None]. *)
Definition keyless_class : ClassDef :=
  {| c_explicit_hydrogens := false;
     c_gasteiger_charges := false;
     c_kekulize := true;
     c_init := λ args, match args with [] => true | _ => false end;
     c_preset := None;
     c_dependencies := λ _, None;
     c_descriptor_key := Some (λ _, None);
     c_calculate := λ _ _ _, inr (PInt 1) |}.

Definition keyless : Cls → PyType := λ cls,
  match cls with
  | 0%nat => DescriptorType keyless_class
  | _ => PlainType (λ _, true)
  end.

(** A descriptor class with two dependencies that are [None]; its result is
    the number of arguments it was called with. *)
Definition optional : Cls → PyType := λ cls,
  match cls with
  | 0%nat =>
      DescriptorType
        (Fixtures.descriptor [("a", None); ("b", None)]
           (λ kwargs, inr (PInt (Z.of_nat (length kwargs)))))
  | _ => PlainType (λ _, true)
  end.

(** The state in which the first pass over [mol] starts. *)
Definition start (ct : ClassTable) (descs : list pyobj) (mol : Fixtures.sym)
  : Calculator.Env :=
  {| Calculator.calc :=
       (Calculator.__call__ mol (Calculator.__init__ ct descs).2).2;
     Calculator.cache := ∅; Calculator.trace := [] |}.

End Examples.

(** * Properties *)

#[local] Set Warnings "-clear-no-such-hyp".


(** ** Keys *)

Section key_properties.
Context `{Python}.

Lemma Key_eq_true (k1 k2 : Key) : Key.__eq__ k1 k2 = true ↔ k1 = k2.
Proof.
  unfold Key.__eq__. rewrite andb_true_iff, !bool_decide_eq_true.
  destruct k1 as [c1 a1], k2 as [c2 a2]; simpl. split.
  - by intros [-> ->].
  - by intros [= -> ->].
Qed.

Lemma Key_ne_negb (k1 k2 : Key) : Key.__ne__ k1 k2 = negb (Key.__eq__ k1 k2).
Proof. unfold Key.__ne__, Key.__eq__. by rewrite negb_andb. Qed.

(** C9. Equality of keys is equality of the class and of the arguments, one by
    one and in order; [!=] is its negation; equal keys have equal hashes.  So
    [Key(A,1,2) == Key(A,1,2)], [Key(A,1,2) != Key(A,2,1)] and, for another
    class [B], [Key(A,1,2) != Key(B,1,2)]. *)
Theorem Key_equality_structural (A B : Cls) (k1 k2 : Key) :
  A ≠ B →
  (Key.__eq__ k1 k2 = true ↔
     Key.cls k1 = Key.cls k2 ∧ Forall2 eq (Key.args k1) (Key.args k2))
  ∧ Key.__ne__ k1 k2 = negb (Key.__eq__ k1 k2)
  ∧ (Key.__eq__ k1 k2 = true → Key.__hash__ k1 = Key.__hash__ k2)
  ∧ Key.__eq__ (Key.Key A [PInt 1; PInt 2]) (Key.Key A [PInt 1; PInt 2]) = true
  ∧ Key.__ne__ (Key.Key A [PInt 1; PInt 2]) (Key.Key A [PInt 2; PInt 1]) = true
  ∧ Key.__ne__ (Key.Key A [PInt 1; PInt 2]) (Key.Key B [PInt 1; PInt 2]) = true.
Proof.
  intros HAB. split_and!.
  - rewrite Key_eq_true. destruct k1 as [c1 a1], k2 as [c2 a2]; simpl.
    rewrite <- list_eq_Forall2. split; [by intros [= -> ->] | by intros [-> ->]].
  - apply Key_ne_negb.
  - by intros ->%Key_eq_true.
  - by apply Key_eq_true.
  - rewrite Key_ne_negb, negb_true_iff. apply not_true_is_false.
    by intros [=]%Key_eq_true.
  - rewrite Key_ne_negb, negb_true_iff. apply not_true_is_false.
    by intros [=]%Key_eq_true.
Qed.

End key_properties.

Lemma Key_equality_structural_witness :
  let k := Key.Key 0 [PInt 1; PInt 2] in
  (0 ≠ 1)%nat ∧ Key.__eq__ k k = true
  ∧ @Key.__hash__ Fixtures.python k = @Key.__hash__ Fixtures.python k.
Proof.
  pose proof (@Key_equality_structural Fixtures.python 0%nat 1%nat
                (Key.Key 0 [PInt 1; PInt 2]) (Key.Key 0 [PInt 1; PInt 2])
                ltac:(lia)) as (_ & _ & Hhash & Heq & _).
  split; [lia | split; [exact Heq | exact (Hhash Heq)]].
Defined.

(** ** The default [descriptor_key] *)

Section descriptor_key.
Context `{RDKit}.

(** C6, as the code has it.  A class that does not override
    [descriptor_key] gives each of its instances the key of the class with no
    arguments: the key is the class alone, so two instances of one class have
    equal keys whatever they were constructed with, and instances of
    different classes have different keys. *)
Theorem default_descriptor_key (d : ClassDef) (self other : Instance) :
  c_descriptor_key d = None →
  Descriptor.descriptor_key d self = Some (Key.Key (i_cls self) [])
  ∧ (i_cls self = i_cls other ↔
       Descriptor.descriptor_key d self = Descriptor.descriptor_key d other).
Proof.
  intros Hd. unfold Descriptor.descriptor_key, Descriptor.make_key.
  rewrite Hd. split; [done|]. split; [by intros -> | by intros [=]].
Qed.

End descriptor_key.

Lemma default_descriptor_key_witness :
  let d := Fixtures.parametrised in
  c_descriptor_key d = None
  ∧ Descriptor.descriptor_key d (Inst 3 [OVal (PInt 1)]) = Some (Key.Key 3 [])
  ∧ Descriptor.descriptor_key d (Inst 3 [OVal (PInt 1)])
    = Descriptor.descriptor_key d (Inst 3 [OVal (PInt 2)]).
Proof.
  pose proof (@default_descriptor_key Fixtures.symbolic Fixtures.parametrised
                (Inst 3 [OVal (PInt 1)]) (Inst 3 [OVal (PInt 2)]) eq_refl) as [Hk Hiff].
  split; [reflexivity | split; [exact Hk | exact (proj1 Hiff eq_refl)]].
Defined.

(** C6, as stated, fails: two instances of a class that inherits
    [descriptor_key], constructed with different arguments [1] and [2], have
    equal keys, and the key does not hold the arguments. *)
Lemma default_descriptor_key_drops_arguments :
  let ct : ClassTable := λ _, DescriptorType Fixtures.parametrised in
  let a := Inst 3 [OVal (PInt 1)] in
  let b := Inst 3 [OVal (PInt 2)] in
  ∃ d, Descriptor.class_of ct a = Some d
     ∧ Descriptor.class_of ct b = Some d
     ∧ c_descriptor_key d = None
     ∧ i_args a ≠ i_args b
     ∧ Descriptor.descriptor_key d a = Some (Key.Key 3 [])
     ∧ Descriptor.descriptor_key d b = Some (Key.Key 3 [])
     ∧ Descriptor.descriptor_key d a ≠ Some (Descriptor.make_key (i_cls a) [PInt 1]).
Proof. exists Fixtures.parametrised. by repeat split. Qed.

(** ** The variant cache *)

Section variant_cache.
Context `{RDKit}.
Import Molecule VariantCache.










(** The sibling of the defect below: [kekulize] works on a copy, and the
    cached hydrogen variant keeps its value. *)
Lemma kekulize_copies (orig : Mol) (e : bool) :
  let m1 := gets [(e, false, false)] (__init__ orig) in
  let m2 := gets [(e, false, false); (e, true, false)] (__init__ orig) in
  cache m1 !! (e, false, false) = Some 0%nat
  ∧ cache m2 !! (e, false, false) = Some 0%nat
  ∧ cache m2 !! (e, true, false) = Some 1%nat
  ∧ deref m2 0 = deref m1 0
  ∧ deref m2 1 = Chem_Kekulize (deref m1 0).
Proof. by destruct e. Qed.

(** [gasteiger] has no copy: the variant it returns is the very object cached
    under the key without charges, and [ComputeGasteigerCharges] has been
    applied to that object. *)
Lemma gasteiger_shares (orig : Mol) (e k : bool) :
  let m1 := gets [(e, k, false)] (__init__ orig) in
  let m2 := gets [(e, k, false); (e, k, true)] (__init__ orig) in
  ∃ r, cache m1 !! (e, k, false) = Some r
     ∧ cache m2 !! (e, k, false) = Some r
     ∧ cache m2 !! (e, k, true) = Some r
     ∧ deref m2 r = ComputeGasteigerCharges (deref m1 r).
Proof. destruct e, k; by eexists. Qed.

End variant_cache.


(** C5 at its failing input, on symbolic molecules: after
    [get(True, False, False)] and [get(True, False, True)] both keys hold the
    same object, and the value cached under [(True, False, False)] is no
    longer the one that was cached there. *)
Theorem gasteiger_modifies_cached_variant :
  let m0 := @Molecule.__init__ Fixtures.symbolic (Fixtures.Raw 0) in
  let m1 := Molecule.gets [(true, false, false)] m0 in
  let m2 := Molecule.gets [(true, false, false); (true, false, true)] m0 in
  Molecule.cache m1 !! (true, false, false) = Some 0%nat
  ∧ Molecule.deref m1 0
    = Fixtures.AddHs (Fixtures.Kekulized (Fixtures.Raw 0))
  ∧ Molecule.cache m2 !! (true, false, false) = Some 0%nat
  ∧ Molecule.cache m2 !! (true, false, true) = Some 0%nat
  ∧ Molecule.deref m2 0
    = Fixtures.Charged (Fixtures.AddHs (Fixtures.Kekulized (Fixtures.Raw 0)))
  ∧ Molecule.deref m2 0 ≠ Molecule.deref m1 0.
Proof. by repeat split. Qed.

(** ** Registration *)

Lemma for_each_cons {S A} (body : A → M S ()) (x : A) (xs : list A) (s : S) :
  for_each body (x :: xs) s
  = match body x s with
    | (Ok _, s') => for_each body xs s'
    | (Raise e, s') => (Raise e, s')
    | (Exhausted, s') => (Exhausted, s')
    end.
Proof. reflexivity. Qed.

Lemma for_each_filter {S A} (body : A → M S ()) (P : A → Prop)
    `{∀ x, Decision (P x)} (xs : list A) (s : S) :
  (∀ x s, ¬ P x → body x s = (Ok (), s)) →
  for_each body xs s = for_each body (filter P xs) s.
Proof.
  intros Hskip. revert s. induction xs as [|x xs IH]; intros s; [done|].
  rewrite filter_cons. destruct (decide (P x)) as [HP|HP].
  - rewrite !for_each_cons. destruct (body x s) as [[[]|e|] s']; auto.
  - rewrite for_each_cons, Hskip by done. apply IH.
Qed.

(** An induction principle for [pyobj] that reaches into sequences. *)
Lemma pyobj_nested_ind (P : pyobj → Prop) :
  (∀ v, P (OVal v)) →
  (∀ i, P (OInst i)) →
  (∀ c, P (OType c)) →
  (∀ ns, P (OModule ns)) →
  (∀ xs, Forall P xs → P (OTuple xs)) →
  (∀ xs, Forall P xs → P (OList xs)) →
  ∀ o, P o.
Proof.
  intros HV HI HT HM HTu HL. fix IH 1.
  intros [v|i|c|ns|xs|xs]; [apply HV | apply HI | apply HT | apply HM | |].
  - apply HTu. induction xs as [|x xs IHxs]; constructor; [apply IH | apply IHxs].
  - apply HL. induction xs as [|x xs IHxs]; constructor; [apply IH | apply IHxs].
Qed.

Section registration.
Context `{RDKit} (ct : ClassTable).
Import Calculator Registry Registration.

#[local] Abbreviation add := (Registration.add ct).
#[local] Abbreviation adds := (Registration.adds ct).
#[local] Abbreviation agrees := (Registration.agrees ct).

Lemma adds_descriptors l c :
  Forall (λ i, is_descriptor ct i) l →
  descriptors (adds l c) = descriptors c ++ l.
Proof.
  revert c. induction l as [|i l IH]; intros c Hl; simpl.
  - by rewrite app_nil_r.
  - inversion_clear Hl as [|?? Hi Hl']. rewrite IH by done.
    unfold add. apply bool_decide_unpack in Hi as [d ->]. simpl.
    by rewrite <- app_assoc.
Qed.

Lemma register_instances l c :
  Forall (λ i, is_descriptor ct i) l →
  register ct (OInst <$> l) c = (Ok (), adds l c).
Proof.
  revert c. induction l as [|i l IH]; intros c Hl; [done|].
  inversion_clear Hl as [|?? Hi Hl']. unfold register in *.
  rewrite fmap_cons, for_each_cons. simpl.
  unfold add. apply bool_decide_unpack in Hi as [d Hd]. rewrite Hd. simpl.
  by apply IH.
Qed.

Lemma in_order_cons (r : list Instance * verdict) rs :
  in_order (r :: rs)
  = match r.2 with
    | Resolved => (r.1 ++ (in_order rs).1, (in_order rs).2)
    | v => (r.1, v)
    end.
Proof. reflexivity. Qed.

(** An exception that is not the [ValueError] of [_register_one], with
    nothing registered. *)
Lemma agrees_raise (e : exn) (run : M Calculator.t ()) :
  e ≠ ValueError NotDescriptor →
  (∀ c, run c = (Raise e, c)) → agrees ([], Unspecified) run.
Proof.
  intros He Hrun. split; [constructor|]. intros c. rewrite Hrun. simpl.
  split; [|done]. split; [done|]. by intros [= ->].
Qed.

Lemma agrees_in_order {A} (body : A → M Calculator.t ())
    (spec : A → list Instance * verdict) (xs : list A) :
  Forall (λ x, agrees (spec x) (body x)) xs →
  agrees (in_order (spec <$> xs)) (for_each body xs).
Proof.
  induction 1 as [|x xs [Hd Hx] _ [IHd IH]]; [by split|].
  rewrite fmap_cons, in_order_cons.
  destruct (spec x) as [l v], (in_order (spec <$> xs)) as [l' v'].
  cbn [fst snd] in *.
  destruct v; cbn [fst snd]; (split; [try apply Forall_app; by auto|]); intros c;
    rewrite ?for_each_cons.
  - rewrite (Hx c). cbn [fst snd]. specialize (IH (adds l c)). unfold adds in *.
    rewrite foldl_app. by destruct v'.
  - by rewrite (Hx c).
  - destruct (Hx c) as [[Hok Hval] Hst].
    destruct (body x c) as [[[]|e|] s']; cbn [fst snd] in *; done.
Qed.

Lemma agrees_instance o : agrees (resolve_instance ct o) (_register_one ct o).
Proof.
  destruct o as [v|i|c|ns|xs|xs]; try by split.
  unfold resolve_instance, is_descriptor, _register_one.
  destruct (Descriptor.class_of ct i) as [d|] eqn:Hd.
  - rewrite bool_decide_eq_true_2 by eauto. split; simpl.
    + constructor; [|done]. apply bool_decide_pack. rewrite Hd. eauto.
    + intros c. unfold add. by rewrite Hd.
  - rewrite bool_decide_eq_false_2 by (by intros [??]). by split.
Qed.

Lemma agrees_type cls : agrees (resolve_type ct cls) (register_type ct cls).
Proof.
  unfold resolve_type, register_type, Descriptor.preset, Descriptor.instantiate.
  destruct (ct cls) as [d|init] eqn:Hcls; [|by apply (agrees_raise AttributeError)].
  destruct (c_preset d) as [ds|].
  - apply (agrees_in_order (_register_one ct) (resolve_instance ct)).
    apply Forall_forall. intros o _. apply agrees_instance.
  - destruct (c_init d []); [|by apply (agrees_raise TypeError)].
    assert (Descriptor.class_of ct (Inst cls []) = Some d) as Hd.
    { unfold Descriptor.class_of. simpl. by rewrite Hcls. }
    split; simpl.
    + constructor; [|done]. apply bool_decide_pack. rewrite Hd. eauto.
    + intros c. unfold mbind, M_bind, mret, M_ret. simpl.
      unfold add. by rewrite Hd.
Qed.

Lemma agrees_module ns : agrees (resolve_module ct ns) (register_module ct ns).
Proof.
  unfold resolve_module, register_module. cbv zeta.
  match goal with
  | |- agrees (in_order (?f <$> ?l)) (for_each ?g _) =>
      set (spec := f); set (body := g);
      assert (agrees (in_order (spec <$> l)) (for_each body l)) as [Hd Hrun]
  end.
  { apply agrees_in_order, Forall_forall. intros name Hname.
    apply list_elem_of_filter in Hname as [Hu _].
    subst body spec. simpl.
    destruct (underscore name); [by destruct Hu|].
    destruct (getattr ns name) as [[cls|]|];
      [|by apply (agrees_raise TypeError)|by apply (agrees_raise AttributeError)].
    unfold register_attr, issubclass_Descriptor.
    destruct (ct cls) as [d|init] eqn:Hcls.
    - destruct (agrees_type cls) as [Hd Hrun]. split; [done|].
      intros c. specialize (Hrun c). unfold mbind, M_bind, mret, M_ret. simpl.
      done.
    - by split. }
  split; [done|]. intros c. specialize (Hrun c).
  rewrite (for_each_filter body (λ name, ¬ underscore name)); [done|].
  intros name s Hu. subst body. simpl.
  destruct (underscore name); [done | exfalso; apply Hu; by intros []].
Qed.

Lemma agrees_call cls rest :
  agrees (resolve_call ct cls rest)
    (d ← Descriptor.instantiate ct cls rest; _register_one ct (OInst d)).
Proof.
  unfold resolve_call, Descriptor.instantiate.
  destruct (ct cls) as [d|init] eqn:Hcls.
  - destruct (c_init d rest); [|by apply (agrees_raise TypeError)].
    assert (Descriptor.class_of ct (Inst cls rest) = Some d) as Hd.
    { unfold Descriptor.class_of. simpl. by rewrite Hcls. }
    split; simpl.
    + constructor; [|done]. apply bool_decide_pack. rewrite Hd. eauto.
    + intros c. unfold mbind, M_bind, mret, M_ret. simpl.
      unfold add. by rewrite Hd.
  - destruct (init rest); [|by apply (agrees_raise TypeError)].
    split; [done|]. intros c. unfold mbind, M_bind, mret, M_ret. simpl.
    unfold Descriptor.class_of. simpl. by rewrite Hcls.
Qed.

Lemma agrees_resolve o : agrees (resolve ct o) (register1 ct o).
Proof.
  induction o as [v|i|c|ns|xs IH|xs IH] using pyobj_nested_ind.
  - destruct v as [|n|s]; try by split.
    simpl. destruct (bool_decide (s = "")); [by split|].
    split; [constructor|]. intros c. by repeat split.
  - apply agrees_instance.
  - apply agrees_type.
  - apply agrees_module.
  - destruct xs as [|x xs]; [by apply (agrees_raise IndexError)|].
    destruct x as [v|i|c|ns|ys|ys];
      try (apply (agrees_in_order (register1 ct) (resolve ct)), IH).
    apply agrees_call.
  - apply (agrees_in_order (register1 ct) (resolve ct)), IH.
Qed.

Lemma agrees_resolve_all descs :
  agrees (resolve_all ct descs) (register ct descs).
Proof.
  apply (agrees_in_order (register1 ct) (resolve ct)), Forall_forall.
  intros o _. apply agrees_resolve.
Qed.

(** C7, as the code has it.  Of any nesting of instances, descriptor types,
    provider groups, [(type, *args)] tuples and sequences that resolves,
    [register] records the instances it stands for, in order, exactly as
    registering each of them by itself does; a tuple whose first element is
    a type is [(type, *args)] whatever the arguments are.  When a leaf is no
    descriptor instance (a number or [None], an object of another class,
    also one yielded by [preset()] or built from a [(type, *args)] tuple),
    [register] raises the [ValueError] of [_register_one].  In every other
    case [register] fails otherwise: it does not succeed and does not raise
    that [ValueError].  In each case the instances before the failing leaf
    stay registered. *)
Theorem register_flattens (descs : list pyobj) (c : Calculator.t) :
  let r := resolve_all ct descs in
  Forall (λ i, is_Some (Descriptor.class_of ct i)) r.1
  ∧ descriptors (register ct descs c).2 = descriptors c ++ r.1
  ∧ match r.2 with
    | Resolved =>
        register ct descs c = register ct (OInst <$> r.1) c
        ∧ (register ct descs c).1 = Ok ()
    | Rejected =>
        register ct descs c
        = (Raise (ValueError NotDescriptor), (register ct (OInst <$> r.1) c).2)
    | Unspecified =>
        (register ct descs c).1 ≠ Ok ()
        ∧ (register ct descs c).1 ≠ Raise (ValueError NotDescriptor)
        ∧ (register ct descs c).2 = (register ct (OInst <$> r.1) c).2
    end.
Proof.
  intros r. destruct (agrees_resolve_all descs) as [Hd Hrun]. fold r in Hd, Hrun.
  clearbody r. destruct r as [l v]. cbn [fst snd] in *. split.
  { eapply Forall_impl; [exact Hd|]. intros i Hi. by apply bool_decide_unpack in Hi. }
  specialize (Hrun c). rewrite (register_instances l c Hd).
  destruct v.
  - rewrite Hrun. cbn [fst snd]. split_and!; try done. by apply adds_descriptors.
  - rewrite Hrun. cbn [fst snd]. split_and!; try done. by apply adds_descriptors.
  - destruct Hrun as [[Hok Hval] Hst]. rewrite Hst. cbn [fst snd].
    split_and!; try done. by apply adds_descriptors.
Qed.

End registration.

(** ** Provider groups *)





Section provider_group.
Context `{RDKit} (ct : ClassTable).
Import Calculator Registration.













End provider_group.



(** The nesting of section 8 of the specification, registered. *)
Example register_nested :
  let ct := Fixtures.registry in
  Registry.resolve_all ct Fixtures.nested
  = ([Inst 0 []; Inst 1 [OVal (PInt 1); OVal (PInt 2)];
      Inst 0 []; Inst 1 [OVal (PInt 7)]; Inst 1 [OVal (PInt 8)];
      Inst 1 [OVal (PInt 3)]; Inst 0 []], Registry.Resolved)
  ∧ (Calculator.__init__ ct Fixtures.nested).1 = Ok ()
  ∧ Calculator.descriptors (Calculator.__init__ ct Fixtures.nested).2
    = [Inst 0 []; Inst 1 [OVal (PInt 1); OVal (PInt 2)];
       Inst 0 []; Inst 1 [OVal (PInt 7)]; Inst 1 [OVal (PInt 8)];
       Inst 1 [OVal (PInt 3)]; Inst 0 []].
Proof. by vm_compute. Qed.

(** A [(type, *args)] tuple whose argument is itself a class: the class is
    called on it and the instance registered. *)
Example register_call_on_a_class :
  let ct := Fixtures.registry in
  let descs := [OTuple [OType 1; OType 0]] in
  Registry.resolve_all ct descs = ([Inst 1 [OType 0]], Registry.Resolved)
  ∧ (Calculator.__init__ ct descs).1 = Ok ()
  ∧ Calculator.descriptors (Calculator.__init__ ct descs).2 = [Inst 1 [OType 0]].
Proof. by vm_compute. Qed.

(** [Descriptor] itself, and a subclass that does not define [calculate],
    is abstract: registering the type ends with the [TypeError] of [cls()]
    and registers nothing. *)
Example register_abstract_type :
  let ct : Cls → @PyType Fixtures.symbolic := λ _, DescriptorType Descriptor.base in
  Registry.resolve_all ct [OType 0] = ([], Registry.Unspecified)
  ∧ (Calculator.__init__ ct [OType 0]).1 = Raise TypeError
  ∧ Calculator.descriptors (Calculator.__init__ ct [OType 0]).2 = [].
Proof. by vm_compute. Qed.

(** A number among the items: the instances before it are registered, and
    [register] raises the [ValueError] of [_register_one]. *)
Example register_rejects_number :
  let ct := Fixtures.registry in
  let descs := [OType 0; OList [OInst (Inst 1 [OVal (PInt 3)]); OVal (PInt 5)]; OType 1] in
  Registry.resolve_all ct descs = ([Inst 0 []; Inst 1 [OVal (PInt 3)]], Registry.Rejected)
  ∧ (Calculator.__init__ ct descs).1 = Raise (ValueError NotDescriptor)
  ∧ Calculator.descriptors (Calculator.__init__ ct descs).2
    = [Inst 0 []; Inst 1 [OVal (PInt 3)]].
Proof. by vm_compute. Qed.

(** C7, as stated, fails: an item that does not resolve to a descriptor
    instance does not always end registration with the [ValueError] of
    [_register_one].  A class that is no subclass of [Descriptor] ends it
    with [AttributeError] (it has no [preset]); inside a provider group the
    same class is passed over and registration succeeds with nothing
    registered. *)
Lemma register_unresolved_without_ValueError :
  let ct := Fixtures.registry in
  Registry.resolve_all ct [OType 9] = ([], Registry.Unspecified)
  ∧ (Calculator.__init__ ct [OType 9]).1 = Raise AttributeError
  ∧ (Calculator.__init__ ct [OModule [("Helper", AType 9)]]).1 = Ok ()
  ∧ Calculator.descriptors
      (Calculator.__init__ ct [OModule [("Helper", AType 9)]]).2 = [].
Proof. by vm_compute. Qed.

(** ** Evaluation *)

Lemma for_collect_cons {S A B} (body : A → M S B) (x : A) (xs : list A) (s : S) :
  for_collect body (x :: xs) s
  = match body x s with
    | (Ok y, s1) =>
        match for_collect body xs s1 with
        | (Ok ys, s2) => (Ok (y :: ys), s2)
        | (Raise e, s2) => (Raise e, s2)
        | (Exhausted, s2) => (Exhausted, s2)
        end
    | (Raise e, s1) => (Raise e, s1)
    | (Exhausted, s1) => (Exhausted, s1)
    end.
Proof.
  change (for_collect body (x :: xs) s)
    with ((y ← body x; ys ← for_collect body xs; mret (y :: ys)) s).
  unfold mbind, M_bind, mret, M_ret.
  destruct (body x s) as [[y|e|] s1]; [|done..].
  by destruct (for_collect body xs s1) as [[ys|e|] s2].
Qed.

Lemma snoc_eq_app {A} (l1 l2 tr : list A) (x : A) :
  l1 ++ l2 = tr ++ [x] →
  (l2 = [] ∧ l1 = tr ++ [x]) ∨ (∃ tr2, l2 = tr2 ++ [x] ∧ tr = l1 ++ tr2).
Proof.
  induction l2 as [|y l2 _] using rev_ind.
  - rewrite app_nil_r. auto.
  - rewrite app_assoc. intros [<- ->]%app_inj_tail. right. by exists l2.
Qed.

Section evaluation.
Context `{RDKit} (ct : ClassTable).
Import Calculator Pass.

#[local] Abbreviation _calculate := (Calculator._calculate ct).
#[local] Abbreviation run := (Pass.run).
#[local] Abbreviation settled := (Pass.settled ct).

Lemma cache_of_app tr1 tr2 c : cache_of (tr1 ++ tr2) c = cache_of tr2 (cache_of tr1 c).
Proof. apply foldl_app. Qed.

Lemma run_refl s : run s [] s.
Proof. split; by rewrite ?app_nil_r. Qed.

Lemma run_trans s s1 s2 new1 new2 :
  run s new1 s1 → run s1 new2 s2 → run s (new1 ++ new2) s2.
Proof.
  intros [Ht1 Hc1 ?????] [Ht2 Hc2 ?????]. split; try congruence.
  - by rewrite Ht2, Ht1, app_assoc.
  - by rewrite Hc2, Hc1, cache_of_app.
  - auto.
Qed.

Lemma settled_nil {A} (r : outcome A) : settled [] r.
Proof. intros tr i mol kwargs Heq. by destruct tr. Qed.

Lemma settled_app {A B} new1 new2 (a : A) (r : outcome B) :
  settled new1 (Ok a) → settled new2 r → settled (new1 ++ new2) r.
Proof.
  intros H1 H2 tr i mol kwargs [[-> Heq]|(tr2 & -> & ->)]%snoc_eq_app.
  - by destruct (H1 _ _ _ _ Heq) as (d & _ & ?).
  - by eapply H2.
Qed.

(** [_calculate], case by case. *)
Lemma calculate_unfold fuel dep s :
  _calculate (S fuel) dep s
  = match dep with
    | DInst i =>
        match Descriptor.class_of ct i with
        | None => (Raise AttributeError, s)
        | Some d =>
            match Descriptor.descriptor_key d i ≫= (cache s !!.) with
            | Some r => (Ok r, s)
            | None =>
                (args ← resolve_deps ct fuel (Descriptor.dependencies d i);
                 finish d i args) s
            end
        end
    | DKey k =>
        match cache s !! k with
        | Some r => (Ok r, s)
        | None =>
            match ct (Key.cls k) with
            | DescriptorType d =>
                if c_init d (OVal <$> Key.args k)
                then (args ← resolve_deps ct fuel
                                (Descriptor.dependencies d (target (DKey k)));
                      finish d (target (DKey k)) args) s
                else (Raise (ValueError CannotCreate), s)
            | PlainType init =>
                if init (OVal <$> Key.args k) then (Raise AttributeError, s)
                else (Raise (ValueError CannotCreate), s)
            end
        end
    end.
Proof.
  destruct dep as [i|k]; simpl.
  - unfold mbind at 1, M_bind at 1. unfold descriptor_class.
    destruct (Descriptor.class_of ct i) as [d|] eqn:Hd; [|done]. simpl.
    unfold mbind at 1, M_bind at 1. simpl.
    destruct (Descriptor.descriptor_key d i ≫= (cache s !!.)); [done|].
    unfold mbind at 1, M_bind at 1. simpl.
    unfold mbind at 1, M_bind at 1. rewrite Hd. simpl. done.
  - unfold Key.descriptor_key. unfold mbind at 1, M_bind at 1. simpl.
    unfold mbind at 1, M_bind at 1. simpl.
    destruct (cache s !! k); [done|].
    unfold mbind at 1, M_bind at 1, Key_create, Descriptor.instantiate.
    unfold descriptor_class, Descriptor.class_of. simpl.
    destruct (ct (Key.cls k)) as [d|init] eqn:Hk.
    + destruct (c_init d (OVal <$> Key.args k)); [|done]. simpl.
      unfold mbind at 1, M_bind at 1. simpl. by rewrite Hk.
    + destruct (init (OVal <$> Key.args k)); [|done]. simpl.
      unfold mbind at 1, M_bind at 1. simpl. by rewrite Hk.
Qed.

Lemma finish_cases d i args s r s' :
  finish d i args s = (r, s') →
  (molecule (calc s) = None ∧ r = Raise AttributeError ∧ s' = s)
  ∨ (∃ mol, run s [Invoke i mol args] s' ∧ r = Raise (failure d i mol args))
  ∨ (∃ mol k v, run s [Invoke i mol args; Store k v] s' ∧ r = Ok v
       ∧ Descriptor.descriptor_key d i = Some k
       ∧ c_calculate d (i_args i) mol args = inr v).
Proof.
  intros Heq. unfold finish in Heq.
  unfold mbind at 1, M_bind at 1 in Heq. unfold molecule_get in Heq.
  destruct (molecule (calc s)) as [m|] eqn:Hm; [|injection Heq as <- <-; by left].
  right. destruct (Molecule.get _ _ _ m) as [ref m'].
  unfold mbind at 1, M_bind at 1 in Heq. simpl in Heq.
  unfold mbind at 1, M_bind at 1 in Heq. unfold failure.
  destruct (c_calculate d (i_args i) (Molecule.deref m' ref) args) as [e|v] eqn:Hc;
    simpl in Heq.
  - injection Heq as <- <-. left. exists (Molecule.deref m' ref). rewrite Hc. by split.
  - destruct (Descriptor.descriptor_key d i) as [k|] eqn:Hk; simpl in Heq.
    + injection Heq as <- <-. right. exists (Molecule.deref m' ref), k, v.
      split_and!; try done. split; simpl; try done. by rewrite <- app_assoc.
    + injection Heq as <- <-. left. exists (Molecule.deref m' ref). rewrite Hc.
      by split.
Qed.

Lemma finish_run d i args s :
  Descriptor.class_of ct i = Some d →
  ∃ new, run s new (finish d i args s).2 ∧ settled new (finish d i args s).1.
Proof.
  intros Hd. destruct (finish d i args s) as [r s'] eqn:Heq.
  destruct (finish_cases d i args s r s' Heq)
    as [(_ & -> & ->)|[(mol & Hrun & ->)|(mol & k & v & Hrun & -> & _)]];
    cbn [fst snd].
  - exists []. split; [apply run_refl | apply settled_nil].
  - eexists. split; [exact Hrun|].
    intros tr i' mol' kw' Hnew. destruct tr as [|? [|??]]; simplify_eq/=. eauto.
  - eexists. split; [exact Hrun|].
    intros tr i' mol' kw' Hnew. destruct tr as [|? [|? [|??]]]; simplify_eq/=.
Qed.

Lemma bind_run {A B} (m : M Env A) (f : A → M Env B) s :
  (∃ new, run s new (m s).2 ∧ settled new (m s).1) →
  (∀ a s1, ∃ new, run s1 new (f a s1).2 ∧ settled new (f a s1).1) →
  ∃ new, run s new ((m ≫= f) s).2 ∧ settled new ((m ≫= f) s).1.
Proof.
  intros (new1 & Hr1 & Hs1) Hf. unfold mbind, M_bind.
  destruct (m s) as [[a|e|] s1]; simpl in *.
  - destruct (Hf a s1) as (new2 & Hr2 & Hs2). exists (new1 ++ new2).
    split; [by eapply run_trans | by eapply settled_app].
  - exists new1. split; [done|]. intros tr i mol kw Heq.
    destruct (Hs1 _ _ _ _ Heq) as (d & ? & [= ->]). eauto.
  - exists new1. split; [done|]. intros tr i mol kw Heq.
    by destruct (Hs1 _ _ _ _ Heq) as (d & ? & ?).
Qed.

Lemma resolve_deps_run fuel deps s :
  (∀ dep s, ∃ new, run s new (_calculate fuel dep s).2
                   ∧ settled new (_calculate fuel dep s).1) →
  ∃ new, run s new (resolve_deps ct fuel deps s).2
         ∧ settled new (resolve_deps ct fuel deps s).1.
Proof.
  intros IH. revert s. induction deps as [|[name [dep|]] deps IHdeps]; intros s.
  - exists []. split; [apply run_refl | apply settled_nil].
  - unfold resolve_deps in *.
    change (for_collect ?f ((name, Some dep) :: deps))
      with (y ← (r ← _calculate fuel dep; mret (name, r));
            ys ← for_collect f deps; mret (y :: ys)).
    apply bind_run.
    + apply bind_run; [apply IH|]. intros r s1. exists [].
      split; [apply run_refl | apply settled_nil].
    + intros y s1. apply bind_run; [apply IHdeps|]. intros ys s2. exists [].
      split; [apply run_refl | apply settled_nil].
  - unfold resolve_deps in *.
    change (for_collect ?f ((name, None) :: deps))
      with (y ← mret (name, PNone); ys ← for_collect f deps; mret (y :: ys)).
    apply bind_run.
    + exists []. split; [apply run_refl | apply settled_nil].
    + intros y s1. apply bind_run; [apply IHdeps|]. intros ys s2. exists [].
      split; [apply run_refl | apply settled_nil].
Qed.

(** What any resolution does: it appends to the trace, the cache is what its
    stores make it, the registry stays as it was, and a call of [calculate]
    that is the last act decides the outcome. *)
Lemma calculate_run fuel dep s :
  ∃ new, run s new (_calculate fuel dep s).2 ∧ settled new (_calculate fuel dep s).1.
Proof.
  revert dep s. induction fuel as [|fuel IH]; intros dep s.
  { exists []. split; [apply run_refl | apply settled_nil]. }
  rewrite calculate_unfold.
  assert (∀ d i, Descriptor.class_of ct i = Some d →
            ∃ new, run s new ((args ← resolve_deps ct fuel (Descriptor.dependencies d i);
                              finish d i args) s).2
                   ∧ settled new ((args ← resolve_deps ct fuel (Descriptor.dependencies d i);
                                   finish d i args) s).1) as Hmiss.
  { intros d i Hd. apply bind_run; [by apply resolve_deps_run|].
    intros args s1. by apply finish_run. }
  destruct dep as [i|k].
  - destruct (Descriptor.class_of ct i) as [d|] eqn:Hd.
    + destruct (Descriptor.descriptor_key d i ≫= (cache s !!.)).
      * exists []. split; [apply run_refl | apply settled_nil].
      * by apply Hmiss.
    + exists []. split; [apply run_refl | apply settled_nil].
  - destruct (cache s !! k).
    { exists []. split; [apply run_refl | apply settled_nil]. }
    destruct (ct (Key.cls k)) as [d|init] eqn:Hk.
    + destruct (c_init d (OVal <$> Key.args k)).
      * apply Hmiss. unfold Descriptor.class_of. simpl. by rewrite Hk.
      * exists []. split; [apply run_refl | apply settled_nil].
    + destruct (init (OVal <$> Key.args k));
        exists []; (split; [apply run_refl | apply settled_nil]).
Qed.


Lemma identities_app tr1 tr2 :
  identities ct (tr1 ++ tr2) = identities ct tr1 ++ identities ct tr2.
Proof. unfold identities, invoked. by rewrite omap_app, fmap_app. Qed.

Lemma receives_mono c c' decl kw : c ⊆ c' → receives ct c decl kw → receives ct c' decl kw.
Proof.
  intros Hsub. destruct decl as [name [dep|]], kw as [name' v]; [|done].
  intros [? (k & ? & ?)]. split; [done|]. exists k. split; [done|].
  by eapply lookup_weaken.
Qed.

Lemma received_mono c c' i kw : c ⊆ c' → received ct c i kw → received ct c' i kw.
Proof.
  intros Hsub Hr. unfold received in *. eapply Forall2_impl; [exact Hr|].
  intros decl kw'. by apply receives_mono.
Qed.

Lemma once_refl c : once ct c [] c.
Proof.
  split; simpl; try done.
  - constructor.
  - by intros k ?%elem_of_nil.
  - intros k -> [??]. done.
  - by intros i mol kw ?%elem_of_nil.
Qed.

Lemma once_trans c c1 c2 new1 new2 :
  once ct c new1 c1 → complete ct new1 c1 → once ct c1 new2 c2 →
  once ct c (new1 ++ new2) c2.
Proof.
  intros [Hnd1 Hf1 Hs1 Hd1 Hr1] Hc1 [Hnd2 Hf2 Hs2 Hd2 Hr2].
  split.
  - rewrite identities_app. apply NoDup_app. split_and!; [done| |done].
    intros id Hin1 Hin2. destruct (Hc1 id Hin1) as (k & -> & [v Hv]).
    by rewrite (Hf2 k Hin2) in Hv.
  - intros k. rewrite identities_app, elem_of_app. intros [Hin|Hin]; [by auto|].
    specialize (Hf2 k Hin). destruct (c !! k) as [v|] eqn:Hk; [|done].
    by rewrite (lookup_weaken _ _ _ _ Hk Hs1) in Hf2.
  - by etrans.
  - intros k Hk Hk2. rewrite identities_app, elem_of_app.
    destruct (c1 !! k) as [v|] eqn:Hk1; [left; apply Hd1; eauto|].
    right. by apply Hd2.
  - intros i mol kw [Hin|Hin]%elem_of_app; [|by eauto].
    eapply received_mono; [exact Hs2 | by eauto].
Qed.

Lemma complete_app new1 new2 c1 c2 :
  c1 ⊆ c2 → complete ct new1 c1 → complete ct new2 c2 → complete ct (new1 ++ new2) c2.
Proof.
  intros Hsub H1 H2 id. rewrite identities_app, elem_of_app. intros [Hin|Hin]; [|by auto].
  destruct (H1 id Hin) as (k & -> & [v Hv]). exists k. split; [done|].
  exists v. by eapply lookup_weaken.
Qed.

Lemma identity_class i d :
  Descriptor.class_of ct i = Some d → identity ct i = Descriptor.descriptor_key d i.
Proof. intros Hd. unfold identity. by rewrite Hd. Qed.

Lemma declared_class i d :
  Descriptor.class_of ct i = Some d → declared ct i = Descriptor.dependencies d i.
Proof. intros Hd. unfold declared. by rewrite Hd. Qed.

(** The call of [calculate] and the store, when the identity is not cached. *)
Lemma finish_once d i args s r s' :
  Descriptor.class_of ct i = Some d →
  identity ct i ≫= (cache s !!.) = None →
  received ct (cache s) i args →
  finish d i args s = (r, s') →
  ∃ new, trace s' = trace s ++ new
    ∧ once ct (cache s) new (cache s')
    ∧ (∀ id, id ∈ identities ct new → id = identity ct i)
    ∧ (∀ v, r = Ok v →
         complete ct new (cache s') ∧ identity ct i ≫= (cache s' !!.) = Some v)
    ∧ r ≠ Exhausted.
Proof.
  intros Hd Hmiss Hrecv Heq.
  destruct (finish_cases d i args s r s' Heq)
    as [(_ & -> & ->)|[(mol & Hrun & ->)|(mol & k & v & Hrun & -> & Hk & _)]].
  - exists []. split_and!; try done.
    + by rewrite app_nil_r.
    + apply once_refl.
    + by intros id ?%elem_of_nil.
  - exists [Invoke i mol args]. destruct Hrun as [Ht Hc _ _ _ _ _]. simpl in Hc.
    rewrite Hc. split_and!; try done.
    + split; simpl; try done.
      * apply NoDup_singleton.
      * intros k' Hin%list_elem_of_singleton. by rewrite <- Hin in Hmiss.
      * intros k' -> [??]. done.
      * intros i' mol' kw' [= -> -> ->]%list_elem_of_singleton. done.
    + by intros id ->%list_elem_of_singleton.
  - exists [Invoke i mol args; Store k v]. destruct Hrun as [Ht Hc _ _ _ _ _].
    simpl in Hc. rewrite Hc.
    assert (identity ct i = Some k) as Hid by by rewrite (identity_class i d).
    rewrite Hid in Hmiss. simpl in Hmiss.
    assert (cache s ⊆ <[k:=v]> (cache s)) as Hsub by by apply insert_subseteq.
    split_and!; try done.
    + split; simpl; try done.
      * apply NoDup_singleton.
      * intros k' Hin%list_elem_of_singleton. rewrite Hid in Hin. by simplify_eq.
      * intros k' Hk' Hin. rewrite lookup_insert_is_Some in Hin.
        destruct Hin as [->|[_ [??]]]; [|congruence].
        apply list_elem_of_singleton. by rewrite Hid.
      * intros i' mol' kw' Hin. apply elem_of_cons in Hin as [[= -> -> ->]|Hin].
        -- by eapply received_mono.
        -- by apply list_elem_of_singleton in Hin.
    + by intros id ->%list_elem_of_singleton.
    + intros v' [= <-]. split.
      * intros id ->%list_elem_of_singleton. exists k. rewrite Hid.
        split; [done|]. rewrite lookup_insert_eq. eauto.
      * rewrite Hid. simpl. apply lookup_insert_eq.
Qed.

Section memoisation.
Context (rank : option Key → nat).
Hypothesis Hcons : consistent_keys ct.
Hypothesis Hacyc : acyclic ct rank.

Lemma resolve_deps_once fuel i deps s :
  (∀ dep s, dep_ok ct dep → memoised ct rank fuel dep s (_calculate fuel dep s)) →
  (∀ x, x ∈ deps → x ∈ declared ct i) →
  memoised_deps ct rank fuel i deps s (resolve_deps ct fuel deps s).
Proof.
  intros IH. revert s. induction deps as [|[name dep] deps IHdeps]; intros s Hdecl.
  { exists []. simpl. split_and!; try done.
    - by rewrite app_nil_r.
    - apply once_refl.
    - intros args [= <-]. split_and!; [|by intros id ?%elem_of_nil|constructor].
      by intros id ?%elem_of_nil. }
  assert ((name, dep) ∈ declared ct i) as Hin by (apply Hdecl; by left).
  assert (∀ x, x ∈ deps → x ∈ declared ct i) as Hdecl'
    by (intros x Hx; apply Hdecl; by right).
  unfold resolve_deps. rewrite for_collect_cons. fold (resolve_deps ct fuel deps).
  destruct dep as [dep|].
  - assert (dep_ok ct dep) as Hok.
    { destruct dep as [i'|k]; [done|]. by eapply Hcons. }
    assert (rank (lookup_key ct dep) < rank (identity ct i))%nat as Hrank
      by by eapply Hacyc.
    destruct (IH dep s Hok) as (new1 & Ht1 & Ho1 & Hd1 & He1).
    unfold mbind at 1, M_bind at 1.
    destruct (_calculate fuel dep s) as [[v|e|] s0]; cbn [fst snd] in *.
    + destruct (Hd1 v eq_refl) as (Hc1 & Hv & Hr1).
      destruct (IHdeps s0 Hdecl') as (new2 & Ht2 & Ho2 & Hd2 & He2).
      unfold mret, M_ret.
      destruct (resolve_deps ct fuel deps s0) as [[args|e|] s1]; cbn [fst snd] in *.
      * exists (new1 ++ new2). cbn [fst snd].
        destruct (Hd2 args eq_refl) as (Hc2 & Hr2 & Hargs).
        split_and!; [by rewrite Ht2, Ht1, app_assoc|by eapply once_trans| |done].
        intros args' [= <-]. split_and!.
        -- eapply complete_app; [apply Ho2|done..].
        -- intros id. rewrite identities_app, elem_of_app. intros [Hid|Hid]; [|by auto].
           specialize (Hr1 id Hid). lia.
        -- constructor; [|done].
           eapply receives_mono; [apply Ho2|]. split; [done|]. simpl.
           destruct (lookup_key ct dep) as [k|]; [|done]. by exists k.
      * exists (new1 ++ new2). cbn [fst snd].
        split_and!; [by rewrite Ht2, Ht1, app_assoc|by eapply once_trans|done|done].
      * exists (new1 ++ new2). cbn [fst snd].
        split_and!; [by rewrite Ht2, Ht1, app_assoc|by eapply once_trans|done|].
        intros Hfuel. by apply He2.
    + exists new1. cbn [fst snd]. by split_and!.
    + exists new1. cbn [fst snd]. split_and!; [done..|].
      intros Hfuel. exfalso. apply He1; [lia|done].
  - destruct (IHdeps s Hdecl') as (new2 & Ht2 & Ho2 & Hd2 & He2).
    unfold mret, M_ret.
    destruct (resolve_deps ct fuel deps s) as [[args|e|] s1]; cbn [fst snd] in *.
    + exists new2. cbn [fst snd]. destruct (Hd2 args eq_refl) as (Hc2 & Hr2 & Hargs).
      split_and!; [done..| |done].
      intros args' [= <-]. split_and!; [done..|]. by constructor.
    + exists new2. cbn [fst snd]. by split_and!.
    + exists new2. cbn [fst snd]. by split_and!.
Qed.

(** The resolution of a descriptor that is not cached. *)
Lemma miss_once fuel dep i d s :
  (∀ dep s, dep_ok ct dep → memoised ct rank fuel dep s (_calculate fuel dep s)) →
  Descriptor.class_of ct i = Some d →
  identity ct i = lookup_key ct dep →
  identity ct i ≫= (cache s !!.) = None →
  memoised ct rank (S fuel) dep s
    ((args ← resolve_deps ct fuel (Descriptor.dependencies d i); finish d i args) s).
Proof.
  intros IH Hd Hid Hmiss. rewrite <- (declared_class i d Hd).
  destruct (resolve_deps_once fuel i (declared ct i) s IH)
    as (new1 & Ht1 & Ho1 & Hd1 & He1); [done|].
  unfold mbind, M_bind.
  destruct (resolve_deps ct fuel (declared ct i) s) as [[args|e|] s1];
    cbn [fst snd] in *.
  - destruct (Hd1 args eq_refl) as (Hc1 & Hr1 & Hargs).
    assert (identity ct i ≫= (cache s1 !!.) = None) as Hmiss1.
    { destruct (identity ct i) as [k|] eqn:Hk; [|done]. simpl in *.
      destruct (cache s1 !! k) as [v|] eqn:Hv; [|done].
      assert (Some k ∈ identities ct new1) as Hin by (eapply once_dom; eauto).
      specialize (Hr1 _ Hin). lia. }
    destruct (finish d i args s1) as [r s'] eqn:Hfin.
    destruct (finish_once d i args s1 r s' Hd Hmiss1 Hargs Hfin)
      as (new2 & Ht2 & Ho2 & Hi2 & Hd2 & He2).
    exists (new1 ++ new2). cbn [fst snd].
    split_and!; [by rewrite Ht2, Ht1, app_assoc|by eapply once_trans| |done].
    intros v ->. destruct (Hd2 v eq_refl) as [Hc2 Hv]. split_and!.
    + eapply complete_app; [apply Ho2|done..].
    + by rewrite <- Hid.
    + intros id. rewrite identities_app, elem_of_app, <- Hid.
      intros [Hin|Hin]; [specialize (Hr1 id Hin); lia|].
      by rewrite (Hi2 id Hin).
  - exists new1. by split_and!.
  - exists new1. split_and!; [done..|]. cbn [fst]. intros Hfuel. rewrite <- Hid in Hfuel.
    exfalso. apply He1; [lia|done].
Qed.

Lemma calculate_once fuel dep s :
  dep_ok ct dep → memoised ct rank fuel dep s (_calculate fuel dep s).
Proof.
  revert dep s. induction fuel as [|fuel IH]; intros dep s Hok.
  { exists []. cbn. split_and!; [by rewrite app_nil_r|apply once_refl|done|lia]. }
  assert (∀ e, memoised ct rank (S fuel) dep s (Raise e, s)) as Hraise.
  { intros e. exists []. cbn.
    split_and!; [by rewrite app_nil_r|apply once_refl|done|done]. }
  assert (∀ v, lookup_key ct dep ≫= (cache s !!.) = Some v →
               memoised ct rank (S fuel) dep s (Ok v, s)) as Hhit.
  { intros v Hv. exists []. cbn.
    split_and!; [by rewrite app_nil_r|apply once_refl| |done].
    intros v' [= <-]. split_and!; [|done|]; by intros id ?%elem_of_nil. }
  rewrite calculate_unfold. destruct dep as [i|k].
  - destruct (Descriptor.class_of ct i) as [d|] eqn:Hd; [|apply Hraise].
    pose proof (identity_class i d Hd) as Hid.
    destruct (Descriptor.descriptor_key d i ≫= (cache s !!.)) as [v|] eqn:Hv.
    + apply Hhit. simpl. by rewrite Hid.
    + apply miss_once; [done..|]. by rewrite Hid.
  - destruct (cache s !! k) as [v|] eqn:Hv; [by apply Hhit|].
    destruct (ct (Key.cls k)) as [d|init] eqn:Hk.
    + destruct (c_init d (OVal <$> Key.args k)); [|apply Hraise].
      assert (Descriptor.class_of ct (target (DKey k)) = Some d) as Hd.
      { unfold Descriptor.class_of. simpl. by rewrite Hk. }
      assert (identity ct (target (DKey k)) = Some k) as Hid.
      { rewrite (identity_class _ d Hd). by apply Hok. }
      apply miss_once; [done..|]. by rewrite Hid.
    + destruct (init (OVal <$> Key.args k)); apply Hraise.
Qed.

End memoisation.

Section generators.
Context `{Python}.

#[local] Abbreviation next := (Calculator.next ct).
#[local] Abbreviation consume := (Calculator.consume ct).

Lemma next_unfold fuel g self :
  next fuel g self
  = match pending g with
    | [] => (Raise StopIteration, g, self)
    | desc :: rest =>
        match Descriptor.class_of ct desc with
        | None =>
            (Raise AttributeError,
             {| pending := []; g_cache := g_cache g; g_trace := g_trace g |}, self)
        | Some d =>
            match _calculate fuel (DInst desc) (env_of g self) with
            | (Ok v, s) =>
                (Ok (Descriptor.descriptor_name d desc, v),
                 {| pending := rest; g_cache := cache s; g_trace := trace s |},
                 calc s)
            | (Raise e, s) =>
                (Raise e,
                 {| pending := []; g_cache := cache s; g_trace := trace s |}, calc s)
            | (Exhausted, s) =>
                (Exhausted,
                 {| pending := []; g_cache := cache s; g_trace := trace s |}, calc s)
            end
        end
    end.
Proof.
  unfold Calculator.next. destruct (pending g) as [|desc rest]; [done|].
  unfold mbind at 1, M_bind at 1, descriptor_class. fold (env_of g self).
  destruct (Descriptor.class_of ct desc) as [d|]; [|done]. simpl.
  unfold mbind, M_bind.
  by destruct (_calculate fuel (DInst desc) (env_of g self)) as [[v|e|] s].
Qed.

(** One call of [next]: what it does to the pass, and that a generator that
    did not yield is finished. *)
Lemma next_run fuel g self :
  ∃ new, run (env_of g self) new
           (env_of (next fuel g self).1.2 (next fuel g self).2)
    ∧ settled new (next fuel g self).1.1
    ∧ ((∀ p, (next fuel g self).1.1 ≠ Ok p) → pending (next fuel g self).1.2 = [])
    ∧ (pending g = [] → next fuel g self = (Raise StopIteration, g, self)).
Proof.
  rewrite next_unfold. destruct (pending g) as [|desc rest] eqn:Hp.
  { exists []. split_and!; [apply run_refl|apply settled_nil|done..]. }
  destruct (Descriptor.class_of ct desc) as [d|].
  2:{ exists []. split_and!; [apply run_refl|apply settled_nil|done..]. }
  destruct (calculate_run fuel (DInst desc) (env_of g self)) as (new & Hrun & Hset).
  destruct (_calculate fuel (DInst desc) (env_of g self)) as [[v|e|] s];
    cbn [fst snd] in *; exists new.
  - split_and!; [by destruct s| |by intros Hp'; destruct (Hp' _ eq_refl)|done].
    intros tr i mol kw Heq. by destruct (Hset _ _ _ _ Heq) as (? & ? & ?).
  - split_and!; [by destruct s| |done..].
    intros tr i mol kw Heq. destruct (Hset _ _ _ _ Heq) as (d' & ? & [= ->]). eauto.
  - split_and!; [by destruct s| |done..].
    intros tr i mol kw Heq. by destruct (Hset _ _ _ _ Heq) as (? & ? & ?).
Qed.

Lemma consume_S fuel n g self :
  consume fuel (S n) g self
  = match next fuel g self with
    | (Ok p, g, self) =>
        let '(ps, r, g, self) := consume fuel n g self in (p :: ps, r, g, self)
    | (Raise e, g, self) => ([], Raise e, g, self)
    | (Exhausted, g, self) => ([], Exhausted, g, self)
    end.
Proof. reflexivity. Qed.

(** Any number of calls of [next]. *)
Lemma consume_run fuel n g self ps r g' self' :
  consume fuel n g self = (ps, r, g', self') →
  ∃ new, run (env_of g self) new (env_of g' self')
    ∧ settled new r
    ∧ (r ≠ Ok () → pending g' = [])
    ∧ (consume fuel (length ps) g self).1.1 = (ps, Ok ()).
Proof.
  revert g self ps r g' self'. induction n as [|n IH]; intros g self ps r g' self'.
  { intros [= <- <- <- <-]. exists [].
    split_and!; [apply run_refl|apply settled_nil|done..]. }
  rewrite consume_S.
  destruct (next_run fuel g self) as (new1 & Hrun1 & Hset1 & Hfin1 & _).
  destruct (next fuel g self) as [[[p|e|] g1] self1] eqn:Hnext; cbn [fst snd] in *.
  - destruct (consume fuel n g1 self1) as [[[ps2 r2] g2] self2] eqn:Hc.
    intros [= <- <- <- <-].
    destruct (IH _ _ _ _ _ _ Hc) as (new2 & Hrun2 & Hset2 & Hfin2 & Hpre).
    exists (new1 ++ new2).
    split_and!; [by eapply run_trans|by eapply settled_app|done|].
    cbn [length]. rewrite consume_S, Hnext.
    destruct (consume fuel (length ps2) g1 self1) as [[[ps3 r3] g3] self3].
    cbn [fst snd] in *. by injection Hpre as -> ->.
  - intros [= <- <- <- <-]. exists new1. split_and!; [done| |by auto|done].
    intros tr i mol kw Heq. destruct (Hset1 _ _ _ _ Heq) as (d' & ? & [= ->]). eauto.
  - intros [= <- <- <- <-]. exists new1. split_and!; [done| |by auto|done].
    intros tr i mol kw Heq. by destruct (Hset1 _ _ _ _ Heq) as (? & ? & ?).
Qed.

Lemma cache_of_snoc_Invoke tr i mol kw c :
  cache_of (tr ++ [Invoke i mol kw]) c = cache_of tr c.
Proof. by rewrite cache_of_app. Qed.

Lemma consume_finished fuel n g self :
  pending g = [] → consume fuel (S n) g self = ([], Raise StopIteration, g, self).
Proof.
  intros Hp. rewrite consume_S.
  destruct (next_run fuel g self) as (_ & _ & _ & _ & Hstop). by rewrite (Hstop Hp).
Qed.

(** *** A failing call of [calculate] *)

Lemma app_eq_app_cons {A} (l1 l2 tr tr' : list A) (x : A) :
  l1 ++ l2 = tr ++ x :: tr' →
  (∃ m, l1 = tr ++ x :: m ∧ tr' = m ++ l2)
  ∨ (∃ m, tr = l1 ++ m ∧ l2 = m ++ x :: tr').
Proof.
  revert tr. induction l1 as [|y l1 IH]; intros tr Heq.
  { right. by exists tr. }
  destruct tr as [|z tr]; simpl in Heq; injection Heq as -> Heq.
  { left. by exists l1. }
  destruct (IH tr Heq) as [(m & -> & ->)|(m & -> & ->)];
    [left | right]; by exists m.
Qed.

Lemma lawful_refl {A} (r : outcome A) s : lawful ct s r s.
Proof.
  exists []. split_and!; [apply run_refl| |].
  - intros tr i mol kw tr' d e Heq. by destruct tr.
  - intros tr k v tr' Heq. by destruct tr.
Qed.

Lemma aborting_impl {A B} new (r : outcome A) (r' : outcome B) :
  (∀ e, r = Raise e → r' = Raise e) → aborting ct new r → aborting ct new r'.
Proof.
  intros Hr Hab tr i mol kw tr' d e Heq Hd He.
  destruct (Hab _ _ _ _ _ _ _ Heq Hd He) as [-> ->]. auto.
Qed.

Lemma lawful_impl {A B} s s' (r : outcome A) (r' : outcome B) :
  (∀ e, r = Raise e → r' = Raise e) → lawful ct s r s' → lawful ct s r' s'.
Proof.
  intros Hr (new & Hrun & Ha & He). exists new.
  split_and!; [done| |done]. by eapply aborting_impl.
Qed.

Lemma lawful_trans {A B} s s1 s2 (a : A) (r : outcome B) :
  lawful ct s (Ok a) s1 → lawful ct s1 r s2 → lawful ct s r s2.
Proof.
  intros (new1 & Hr1 & Ha1 & He1) (new2 & Hr2 & Ha2 & He2).
  exists (new1 ++ new2). split_and!; [by eapply run_trans| |].
  - intros tr i mol kw tr' d e
      [(m & -> & ->)|(m & -> & ->)]%app_eq_app_cons Hd He.
    + by destruct (Ha1 _ _ _ _ _ _ _ eq_refl Hd He) as [_ ?].
    + by eapply Ha2.
  - intros tr k v tr' [(m & -> & ->)|(m & -> & ->)]%app_eq_app_cons.
    + by eapply He1.
    + destruct (He2 _ _ _ _ eq_refl) as (tr0 & i & mol & kw & d & -> & ?).
      exists (new1 ++ tr0), i, mol, kw, d. by rewrite app_assoc.
Qed.

Lemma lawful_bind {A B} (m : M Env A) (f : A → M Env B) s :
  lawful ct s (m s).1 (m s).2 →
  (∀ a s1, lawful ct s1 (f a s1).1 (f a s1).2) →
  lawful ct s ((m ≫= f) s).1 ((m ≫= f) s).2.
Proof.
  intros Hm Hf. unfold mbind, M_bind.
  destruct (m s) as [[a|e|] s1]; cbn [fst snd] in *.
  - eapply lawful_trans; [exact Hm | apply Hf].
  - destruct Hm as (new & Hr & Ha & He). exists new. split_and!; [done| |done].
    intros tr i mol kw tr' d e' Heq Hd He'.
    destruct (Ha _ _ _ _ _ _ _ Heq Hd He') as [-> [= ->]]. done.
  - destruct Hm as (new & Hr & Ha & He). exists new. split_and!; [done| |done].
    intros tr i mol kw tr' d e' Heq Hd He'.
    by destruct (Ha _ _ _ _ _ _ _ Heq Hd He') as [_ ?].
Qed.

Lemma finish_lawful d i args s :
  Descriptor.class_of ct i = Some d →
  lawful ct s (finish d i args s).1 (finish d i args s).2.
Proof.
  intros Hd. destruct (finish d i args s) as [r s'] eqn:Heq.
  destruct (finish_cases d i args s r s' Heq)
    as [(_ & -> & ->)|[(mol & Hrun & ->)|(mol & k & v & Hrun & -> & Hk & Hv)]];
    cbn [fst snd].
  - apply lawful_refl.
  - eexists. split_and!; [exact Hrun| |].
    + intros tr i' mol' kw' tr' d' e Hnew Hd' He.
      destruct tr as [|? [|??]]; simplify_eq/=.
      split; [done|]. unfold failure. by rewrite He.
    + intros tr k v tr' Hnew. destruct tr as [|? [|??]]; simplify_eq/=.
  - eexists. split_and!; [exact Hrun| |].
    + intros tr i' mol' kw' tr' d' e Hnew Hd' He.
      destruct tr as [|? [|? [|??]]]; simplify_eq/=. congruence.
    + intros tr k' v' tr' Hnew. destruct tr as [|? [|? [|??]]]; simplify_eq/=.
      exists [], i, mol, args, d. done.
Qed.

Lemma resolve_deps_lawful fuel deps s :
  (∀ dep s, lawful ct s (_calculate fuel dep s).1 (_calculate fuel dep s).2) →
  lawful ct s (resolve_deps ct fuel deps s).1 (resolve_deps ct fuel deps s).2.
Proof.
  intros IH. revert s. induction deps as [|[name [dep|]] deps IHdeps]; intros s.
  - apply lawful_refl.
  - unfold resolve_deps in *.
    change (for_collect ?f ((name, Some dep) :: deps))
      with (y ← (r ← _calculate fuel dep; mret (name, r));
            ys ← for_collect f deps; mret (y :: ys)).
    apply lawful_bind.
    + apply lawful_bind; [apply IH|]. intros r s1. apply lawful_refl.
    + intros y s1. apply lawful_bind; [apply IHdeps|]. intros ys s2.
      apply lawful_refl.
  - unfold resolve_deps in *.
    change (for_collect ?f ((name, None) :: deps))
      with (y ← mret (name, PNone); ys ← for_collect f deps; mret (y :: ys)).
    apply lawful_bind.
    + apply lawful_refl.
    + intros y s1. apply lawful_bind; [apply IHdeps|]. intros ys s2.
      apply lawful_refl.
Qed.

(** Whatever a resolution does: a call of [calculate] that raises ends it
    with what was raised, and only what a call returned is stored. *)
Lemma calculate_lawful fuel dep s :
  lawful ct s (_calculate fuel dep s).1 (_calculate fuel dep s).2.
Proof.
  revert dep s. induction fuel as [|fuel IH]; intros dep s; [apply lawful_refl|].
  rewrite calculate_unfold.
  assert (∀ d i, Descriptor.class_of ct i = Some d →
            lawful ct s
              ((args ← resolve_deps ct fuel (Descriptor.dependencies d i);
                finish d i args) s).1
              ((args ← resolve_deps ct fuel (Descriptor.dependencies d i);
                finish d i args) s).2) as Hmiss.
  { intros d i Hd. apply lawful_bind; [by apply resolve_deps_lawful|].
    intros args s1. by apply finish_lawful. }
  destruct dep as [i|k].
  - destruct (Descriptor.class_of ct i) as [d|] eqn:Hd; [|apply lawful_refl].
    destruct (Descriptor.descriptor_key d i ≫= (cache s !!.)); [apply lawful_refl|].
    by apply Hmiss.
  - destruct (cache s !! k); [apply lawful_refl|].
    destruct (ct (Key.cls k)) as [d|init] eqn:Hk.
    + destruct (c_init d (OVal <$> Key.args k)); [|apply lawful_refl].
      apply Hmiss. unfold Descriptor.class_of. simpl. by rewrite Hk.
    + destruct (init (OVal <$> Key.args k)); apply lawful_refl.
Qed.

Lemma next_lawful fuel g self :
  lawful ct (env_of g self) (next fuel g self).1.1
    (env_of (next fuel g self).1.2 (next fuel g self).2).
Proof.
  rewrite next_unfold. destruct (pending g) as [|desc rest]; [apply lawful_refl|].
  destruct (Descriptor.class_of ct desc) as [d|]; [|apply lawful_refl].
  pose proof (calculate_lawful fuel (DInst desc) (env_of g self)) as Hl.
  destruct (_calculate fuel (DInst desc) (env_of g self)) as [[v|e|] s];
    cbn [fst snd] in *.
  all: destruct Hl as (new & Hr & Ha & He); exists new.
  all: split_and!; [by destruct s| |done].
  all: eapply aborting_impl; [|exact Ha]; by intros e' [= <-].
Qed.

Lemma consume_lawful fuel n g self ps r g' self' :
  consume fuel n g self = (ps, r, g', self') →
  lawful ct (env_of g self) r (env_of g' self').
Proof.
  revert g self ps r g' self'. induction n as [|n IH]; intros g self ps r g' self'.
  { intros [= <- <- <- <-]. apply lawful_refl. }
  rewrite consume_S. pose proof (next_lawful fuel g self) as Hl.
  destruct (next fuel g self) as [[[p|e|] g1] self1]; cbn [fst snd] in *.
  - destruct (consume fuel n g1 self1) as [[[ps2 r2] g2] self2] eqn:Hc.
    intros [= <- <- <- <-]. eapply lawful_trans; [exact Hl | by eapply IH].
  - intros [= <- <- <- <-]. eapply lawful_impl; [|exact Hl]. by intros e' [= <-].
  - intros [= <- <- <- <-]. eapply lawful_impl; [|exact Hl]. by intros e' [=].
Qed.

(** C8. When, at any point of a pass, the [calculate] of a descriptor was
    called and that call raised [e]: the call was the last thing the pass
    did, so nothing was stored for it and nothing was called after it; the
    consumer gets [e] itself; the result cache holds what was stored before
    that call, and each of these entries is the value that the call of
    [calculate] just before it returned; the generator is finished, any
    further [next] is [StopIteration]; and the pairs yielded before are the
    pairs that consuming just so many elements yields. *)
Theorem calculate_error_ends_pass fuel n g self ps r g' self' tr i mol kwargs tr' d e :
  consume fuel n g self = (ps, r, g', self') →
  g_trace g' = g_trace g ++ tr ++ Invoke i mol kwargs :: tr' →
  Descriptor.class_of ct i = Some d →
  c_calculate d (i_args i) mol kwargs = inl e →
  tr' = []
  ∧ r = Raise e
  ∧ g_cache g' = cache_of tr (g_cache g)
  ∧ earned ct tr
  ∧ pending g' = []
  ∧ (∀ m, consume fuel (S m) g' self' = ([], Raise StopIteration, g', self'))
  ∧ (consume fuel (length ps) g self).1.1 = (ps, Ok ()).
Proof.
  intros Hc Htr Hd He.
  destruct (consume_lawful fuel n g self ps r g' self' Hc)
    as (new & [Ht Hcache _ _ _ _ _] & Hab & Hearned).
  destruct (consume_run fuel n g self ps r g' self' Hc)
    as (_ & _ & _ & Hfin & Hpre).
  simpl in Ht, Hcache. rewrite Htr in Ht. apply app_inv_head in Ht. subst new.
  destruct (Hab _ _ _ _ _ _ _ eq_refl Hd He) as [-> ->].
  assert (pending g' = []) as Hp by by apply Hfin.
  split_and!; [done|done| | |done| |done].
  - by rewrite Hcache, cache_of_snoc_Invoke.
  - intros tr1 k v tr2 ->. apply (Hearned tr1 k v (tr2 ++ [Invoke i mol kwargs])).
    by rewrite <- !app_assoc.
  - intros m. by apply consume_finished.
Qed.

Section memoised_pass.
Context (rank : option Key → nat).
Hypothesis Hcons : consistent_keys ct.
Hypothesis Hacyc : acyclic ct rank.

Lemma next_once fuel g self :
  memoising ct g →
  Forall (λ i, (rank (identity ct i) < fuel)%nat) (pending g) →
  memoising ct (next fuel g self).1.2
  ∧ (next fuel g self).1.1 ≠ Exhausted
  ∧ Forall (λ i, (rank (identity ct i) < fuel)%nat) (pending (next fuel g self).1.2).
Proof.
  intros [Ho Hc] Hfuel. rewrite next_unfold.
  destruct (pending g) as [|desc rest] eqn:Hp.
  { cbn [fst snd]. rewrite Hp. by split_and!. }
  assert (complete ct (g_trace g) (g_cache g)) as Hc' by by apply Hc.
  inversion_clear Hfuel as [|?? Hdesc Hrest].
  destruct (Descriptor.class_of ct desc) as [d|].
  2:{ cbn [fst snd]. split_and!; [by split|done|constructor]. }
  destruct (calculate_once rank Hcons Hacyc fuel (DInst desc) (env_of g self) I)
    as (new & Ht & Ho1 & Hd1 & He1).
  destruct (Calculator._calculate ct fuel (DInst desc) (env_of g self))
    as [[v|e|] s]; cbn [fst snd] in *; rewrite Ht.
  - destruct (Hd1 v eq_refl) as (Hc1 & _ & _). split_and!; [|done..].
    split; cbn.
    + by eapply once_trans.
    + intros _. eapply complete_app; [apply Ho1|done..].
  - split_and!; [|done|constructor]. split; cbn; [by eapply once_trans|done].
  - exfalso. by apply He1.
Qed.

Lemma consume_once fuel n g self :
  memoising ct g →
  Forall (λ i, (rank (identity ct i) < fuel)%nat) (pending g) →
  memoising ct (consume fuel n g self).1.2
  ∧ (consume fuel n g self).1.1.2 ≠ Exhausted.
Proof.
  revert g self. induction n as [|n IH]; intros g self Hg Hfuel; [done|].
  rewrite consume_S.
  destruct (next_once fuel g self Hg Hfuel) as (Hg1 & He1 & Hfuel1).
  destruct (next fuel g self) as [[[p|e|] g1] self1]; cbn [fst snd] in *;
    [|done..].
  specialize (IH g1 self1 Hg1 Hfuel1).
  by destruct (consume fuel n g1 self1) as [[[ps r] g2] self2].
Qed.

(** C1, as the code has it.  Let every key that is declared as a dependency
    be the [descriptor_key] of the descriptor it creates, and let the
    declarations go down along a rank of the identities (the graph is
    acyclic).  Then a pass over any input, consumed to any length with fuel
    above the ranks of the registered descriptors, does not run out of
    recursion, calls [calculate] at most once for each identity, and every
    descriptor called has received, for each dependency it declares, the
    value the cache holds for that dependency's identity: two dependents of
    one descriptor receive the same cached value. *)
Theorem identity_computed_once (self : Calculator.t) (mol : Mol) (fuel n : nat) :
  Forall (λ i, (rank (identity ct i) < fuel)%nat) (descriptors self) →
  let res := consume fuel n (__call__ mol self).1 (__call__ mol self).2 in
  res.1.1.2 ≠ Exhausted
  ∧ NoDup (identities ct (g_trace res.1.2))
  ∧ ∀ i m kwargs, Invoke i m kwargs ∈ g_trace res.1.2 →
                  received ct (g_cache res.1.2) i kwargs.
Proof.
  intros Hfuel res.
  destruct (consume_once fuel n (__call__ mol self).1 (__call__ mol self).2)
    as [[Ho _] He]; [|done|].
  { split; cbn; [apply once_refl | by intros _ id ?%elem_of_nil]. }
  fold res in Ho, He. split_and!; [done|apply Ho|apply Ho].
Qed.

End memoised_pass.

(** C3, as the code has it.  A call makes an empty result cache of its own
    and a new [Molecule], which it puts on the calculator, where it still is
    when the pass is over.  A pass leaves the registered descriptors and the
    three flags as they were, so a call made after a pass was consumed is the
    call that would have been made without that pass, and yields the same. *)
Theorem registry_reusable_in_turn (self : Calculator.t) (mol1 mol2 : Mol)
    (fuel n1 n2 : nat) :
  let self' := (consume fuel n1 (__call__ mol1 self).1 (__call__ mol1 self).2).2 in
  g_cache (__call__ mol1 self).1 = ∅
  ∧ molecule (__call__ mol1 self).2 = Some (Molecule.__init__ mol1)
  ∧ is_Some (molecule self')
  ∧ descriptors self' = descriptors self
  ∧ explicitH self' = explicitH self
  ∧ gasteiger self' = gasteiger self
  ∧ kekulize self' = kekulize self
  ∧ __call__ mol2 self' = __call__ mol2 self
  ∧ consume fuel n2 (__call__ mol2 self').1 (__call__ mol2 self').2
    = consume fuel n2 (__call__ mol2 self).1 (__call__ mol2 self).2.
Proof.
  intros self'. subst self'.
  destruct (consume fuel n1 (__call__ mol1 self).1 (__call__ mol1 self).2)
    as [[[ps r] g'] self'] eqn:Hc.
  destruct (consume_run _ _ _ _ _ _ _ _ Hc) as (new & [_ _ Hd He Hg Hk Hm] & _).
  cbn in Hd, He, Hg, Hk, Hm. cbn [fst snd].
  assert (__call__ mol2 self' = __call__ mol2 self) as Hcall.
  { unfold __call__. by rewrite Hd, He, Hg, Hk. }
  split_and!; try done.
  - apply Hm. eauto.
  - by rewrite Hcall.
Qed.

(** A resolution that begins by resolving a dependency that begins by
    resolving a dependency, and so on without end, uses up any fuel: it
    returns nothing and raises nothing. *)
Lemma descent_exhausts (P : Dep → Prop) (c : gmap Key PyVal) fuel dep s :
  (∀ dep, P dep → ∃ dep', P dep' ∧ descends ct c dep dep') →
  cache s = c → P dep →
  _calculate fuel dep s = (Exhausted, s).
Proof.
  intros Hdesc Hc. revert dep. induction fuel as [|fuel IH]; intros dep Hdep; [done|].
  destruct (Hdesc dep Hdep) as (dep' & Hdep' & Hmiss & d & name & rest & Hd & Hinit & Hdeps).
  rewrite calculate_unfold. rewrite <- Hc in Hmiss.
  assert ((args ← resolve_deps ct fuel (Descriptor.dependencies d (target dep));
           finish d (target dep) args) s = (Exhausted, s)) as Hrun.
  { rewrite Hdeps. unfold resolve_deps, mbind at 1, M_bind at 1.
    rewrite for_collect_cons. unfold mbind at 1, M_bind at 1.
    by rewrite (IH dep' Hdep'). }
  destruct dep as [i|k]; simpl in *.
  - unfold Descriptor.class_of. rewrite Hd.
    unfold identity, Descriptor.class_of in Hmiss. rewrite Hd in Hmiss.
    simpl in Hmiss. by rewrite Hmiss.
  - by rewrite Hmiss, Hd, Hinit.
Qed.

(** C2, as the code has it.  There is no set of identities in progress and
    no error for a cycle.  When the resolution of a registered descriptor
    runs into a cycle (each descriptor on the way is not cached, can be
    created, and declares the next one as its first dependency), [next]
    neither yields nor raises, whatever the fuel: the recursion has no end of
    its own. *)
Theorem cycle_recurses_unboundedly (P : Dep → Prop) fuel g self desc rest :
  (∀ dep, P dep → ∃ dep', P dep' ∧ descends ct (g_cache g) dep dep') →
  pending g = desc :: rest →
  P (DInst desc) →
  next fuel g self
  = (Exhausted, {| pending := []; g_cache := g_cache g; g_trace := g_trace g |}, self).
Proof.
  intros Hdesc Hp Hdep. rewrite next_unfold, Hp.
  destruct (Hdesc _ Hdep) as (_ & _ & _ & d & _ & _ & Hd & _); simpl in Hd.
  unfold Descriptor.class_of. rewrite Hd.
  by rewrite (descent_exhausts P (g_cache g) fuel (DInst desc) (env_of g self)).
Qed.
End generators.
End evaluation.

(** ** The properties at work *)

#[local] Existing Instance Fixtures.symbolic.
#[local] Existing Instance Fixtures.python.

Lemma shared_consistent : Pass.consistent_keys Fixtures.shared.
Proof.
  intros [[|[|[|cls]]] args] name k Hin; declared_cases Hin.
  intros d. cbn. by intros [= <-].
Qed.

Lemma shared_acyclic : Pass.acyclic Fixtures.shared Fixtures.shared_rank.
Proof.
  intros [[|[|[|cls]]] args] name dep Hin; declared_cases Hin;
    unfold Fixtures.shared_rank; cbv -[Nat.lt]; lia.
Qed.

Lemma identity_computed_once_witness :
  let ct := Fixtures.shared in
  let self := (Calculator.__init__ ct [OType 1; OType 2]).2 in
  let res := Calculator.consume ct 2 2
               (Calculator.__call__ (Fixtures.Raw 0) self).1
               (Calculator.__call__ (Fixtures.Raw 0) self).2 in
  Forall (λ i, (Fixtures.shared_rank (Pass.identity ct i) < 2)%nat)
         (Calculator.descriptors self)
  ∧ res.1.1.2 ≠ Exhausted
  ∧ NoDup (Pass.identities ct (Calculator.g_trace res.1.2)).
Proof.
  intros ct self res.
  assert (Forall (λ i, (Fixtures.shared_rank (Pass.identity ct i) < 2)%nat)
            (Calculator.descriptors self)) as Hfuel.
  { repeat constructor. }
  split; [exact Hfuel|].
  destruct (identity_computed_once ct Fixtures.shared_rank
              shared_consistent shared_acyclic self (Fixtures.Raw 0) 2 2 Hfuel)
    as (He & Hnd & _).
  split; [exact He | exact Hnd].
Defined.

(** The pass of the witness, run: [A] is computed once, and [B] and [C] both
    receive its value [42]. *)
Example shared_dependency_run :
  let ct := Fixtures.shared in
  let self := (Calculator.__init__ ct [OType 1; OType 2]).2 in
  let res := Calculator.consume ct 2 2
               (Calculator.__call__ (Fixtures.Raw 0) self).1
               (Calculator.__call__ (Fixtures.Raw 0) self).2 in
  res.1.1 = ([("T17", PInt 43); ("T27", PInt 44)], Ok ())
  ∧ Pass.invoked (Calculator.g_trace res.1.2) = [Inst 0 []; Inst 1 []; Inst 2 []].
Proof. by vm_compute. Qed.

(** C1, as stated, fails: [B] and [C] both depend on [A.make_key(1)], and
    [A] inherits [descriptor_key].  The value of [A] is looked up under
    [Key(A, 1)] and stored under [Key(A)], so that the pass, which ends well,
    calls the [calculate] of the same [A(1)] twice. *)
Lemma shared_key_computed_twice :
  let ct := Fixtures.unkeyed in
  let self := (Calculator.__init__ ct [OType 1; OType 2]).2 in
  let res := Calculator.consume ct 5 2
               (Calculator.__call__ (Fixtures.Raw 0) self).1
               (Calculator.__call__ (Fixtures.Raw 0) self).2 in
  res.1.1 = ([("T17", PInt 2); ("T27", PInt 3)], Ok ())
  ∧ Pass.invoked (Calculator.g_trace res.1.2)
    = [Inst 0 [OVal (PInt 1)]; Inst 1 []; Inst 0 [OVal (PInt 1)]; Inst 2 []]
  ∧ Pass.identities ct (Calculator.g_trace res.1.2)
    = [Some (Key.Key 0 []); Some (Key.Key 1 []);
       Some (Key.Key 0 []); Some (Key.Key 2 [])]
  ∧ ¬ NoDup (Pass.identities ct (Calculator.g_trace res.1.2)).
Proof.
  intros ct self res. split_and!; [by vm_compute..|].
  assert (Pass.identities ct (Calculator.g_trace res.1.2)
          = [Some (Key.Key 0 []); Some (Key.Key 1 []);
             Some (Key.Key 0 []); Some (Key.Key 2 [])]) as -> by by vm_compute.
  intros Hnd. apply NoDup_cons in Hnd as [Hnotin _]. apply Hnotin. set_solver.
Qed.

Lemma cyclic_descends (dep : Dep) :
  Fixtures.on_cycle dep → ∃ dep', Fixtures.on_cycle dep' ∧ Pass.descends Fixtures.cyclic ∅ dep dep'.
Proof.
  intros [->| ->].
  - exists (DKey (Key.Key 1 [])). split; [by right|]. split; [done|].
    by eexists _, _, _.
  - exists (DInst (Inst 0 [])). split; [by left|]. split; [done|].
    by eexists _, _, _.
Qed.

Lemma cycle_recurses_unboundedly_witness :
  let ct := Fixtures.cyclic in
  let self := (Calculator.__init__ ct [OType 0]).2 in
  let g := (Calculator.__call__ (Fixtures.Raw 0) self).1 in
  let c := (Calculator.__call__ (Fixtures.Raw 0) self).2 in
  Calculator.pending g = [Inst 0 []]
  ∧ Fixtures.on_cycle (DInst (Inst 0 []))
  ∧ (Calculator.next ct 1000 g c).1.1 = Exhausted.
Proof.
  intros ct self g c. split; [reflexivity|]. split; [by left|].
  by rewrite (cycle_recurses_unboundedly ct Fixtures.on_cycle 1000 g c (Inst 0 []) []
                cyclic_descends eq_refl (or_introl eq_refl)).
Defined.

(** C2, as stated, fails: [A] depends on [B] and [B] on [A]; no fuel is
    enough for the pass to yield or to raise anything, a [CycleDetected]
    included. *)
Lemma cycle_raises_nothing :
  let ct := Fixtures.cyclic in
  let self := (Calculator.__init__ ct [OType 0]).2 in
  let g := (Calculator.__call__ (Fixtures.Raw 0) self).1 in
  let c := (Calculator.__call__ (Fixtures.Raw 0) self).2 in
  ¬ ∃ fuel, (Calculator.next ct fuel g c).1.1 ≠ Exhausted.
Proof.
  intros ct self g c [fuel Hne]. apply Hne.
  rewrite next_unfold.
  change (Calculator.pending g) with [Inst 0 []].
  cbn [Descriptor.class_of i_cls ct Fixtures.cyclic].
  by rewrite (descent_exhausts ct Fixtures.on_cycle ∅ fuel (DInst (Inst 0 []))
                (Pass.env_of g c) cyclic_descends eq_refl (or_introl eq_refl)).
Qed.

(** C3, as stated, fails: the [Molecule] of a call is kept on the calculator,
    and a generator reads it from there when it is consumed.  A call on input
    [1] yields the value of input [1] when consumed at once, and the value of
    input [2] when a call on input [2] was made before it is consumed. *)
Lemma interleaved_call_changes_output :
  let ct := Fixtures.probe in
  let self := (Calculator.__init__ ct [OType 0]).2 in
  let first := Calculator.__call__ (Fixtures.Raw 1) self in
  let second := Calculator.__call__ (Fixtures.Raw 2) first.2 in
  (Calculator.next ct 1 first.1 first.2).1.1 = Ok ("T07", PInt 1)
  ∧ (Calculator.next ct 1 first.1 second.2).1.1 = Ok ("T07", PInt 2)
  ∧ Calculator.molecule self = None
  ∧ is_Some (Calculator.molecule (Calculator.next ct 1 first.1 first.2).2).
Proof. split_and!; [by vm_compute..|]. by eexists. Qed.

Lemma calculate_error_ends_pass_witness :
  let ct := Fixtures.failing in
  let self := (Calculator.__init__ ct [OType 0; OType 2; OType 0]).2 in
  let g := (Calculator.__call__ (Fixtures.Raw 0) self).1 in
  let c := (Calculator.__call__ (Fixtures.Raw 0) self).2 in
  let res := Calculator.consume ct 5 3 g c in
  let a := Fixtures.AddHs (Fixtures.Kekulized (Fixtures.Raw 0)) in
  let tr := [Calculator.Invoke (Inst 0 []) a [];
             Calculator.Store (Key.Key 0 []) (PInt 42)] in
  Calculator.g_trace res.1.2
  = Calculator.g_trace g ++ tr ++ [Calculator.Invoke (Inst 1 []) a [("a", PInt 42)]]
  ∧ res.1.1.1 = [("T07", PInt 42)]
  ∧ res.1.1.2 = Raise (Error "no rings")
  ∧ Calculator.g_cache res.1.2 = Pass.cache_of tr (Calculator.g_cache g)
  ∧ Calculator.pending res.1.2 = [].
Proof.
  intros ct self g c res a tr.
  assert (Calculator.g_trace res.1.2
          = Calculator.g_trace g ++ tr
            ++ [Calculator.Invoke (Inst 1 []) a [("a", PInt 42)]]) as Htr
    by by vm_compute.
  assert (Calculator.consume ct 5 3 g c = (res.1.1.1, res.1.1.2, res.1.2, res.2))
    as Hc by (unfold res; by destruct (Calculator.consume ct 5 3 g c) as [[[??]?]?]).
  destruct (calculate_error_ends_pass ct 5 3 g c _ _ _ _ tr (Inst 1 []) a
              [("a", PInt 42)] []
              (Fixtures.descriptor [("a", Some (DInst (Inst 0 [])))]
                                   (λ _, inl (Error "no rings")))
              (Error "no rings") Hc Htr eq_refl eq_refl)
    as (_ & Hr & Hcache & _ & Hp & _ & _).
  split_and!; [exact Htr | by vm_compute | exact Hr | exact Hcache | exact Hp].
Defined.

(** * Further properties *)

(** ** Registration only appends *)

Section registration_grows.
Context `{RDKit} (ct : ClassTable).
Import Calculator Registry Registration Flags.

#[local] Abbreviation adds := (Registration.adds ct).
#[local] Abbreviation grows := (Flags.grows ct).

Lemma grows_still (run : M Calculator.t ()) :
  (∀ c, (run c).2 = c) → grows run.
Proof. intros Hrun c. exists []. split; [constructor | apply Hrun]. Qed.

Lemma grows_for_each {A} (body : A → M Calculator.t ()) (xs : list A) :
  Forall (λ x, grows (body x)) xs → grows (for_each body xs).
Proof.
  induction 1 as [|x xs Hx _ IH]; intros c.
  { exists []. by split. }
  rewrite for_each_cons. destruct (Hx c) as (l1 & Hl1 & Hc1).
  destruct (body x c) as [[[]|e|] c1]; simpl in Hc1; subst c1.
  - destruct (IH (adds l1 c)) as (l2 & Hl2 & Hc2). exists (l1 ++ l2).
    split; [by apply Forall_app|]. rewrite Hc2. unfold Registration.adds.
    by rewrite foldl_app.
  - by exists l1.
  - by exists l1.
Qed.

Lemma grows_register_one o : grows (_register_one ct o).
Proof.
  intros c. destruct o as [v|i|cls|ns|xs|xs]; try by exists [].
  simpl. destruct (Descriptor.class_of ct i) as [d|] eqn:Hd; [|by exists []].
  exists [i]. split.
  - constructor; [|done]. apply bool_decide_pack. rewrite Hd. eauto.
  - simpl. unfold Registration.add. by rewrite Hd.
Qed.

Lemma grows_register_type cls : grows (register_type ct cls).
Proof.
  intros c. unfold register_type, Descriptor.preset, Descriptor.instantiate.
  unfold mbind at 1, M_bind at 1.
  destruct (ct cls) as [d|init]; [|by exists []].
  destruct (c_preset d) as [ds|]; simpl.
  - assert (Forall (λ o, grows (_register_one ct o)) ds) as Hall
      by (apply Forall_forall; intros o _; apply grows_register_one).
    exact (grows_for_each (_register_one ct) _ Hall c).
  - destruct (c_init d []); simpl; [|by exists []].
    assert (Forall (λ o, grows (_register_one ct o)) [OInst (Inst cls [])]) as Hone
      by (constructor; [apply grows_register_one | constructor]).
    exact (grows_for_each (_register_one ct) _ Hone c).
Qed.

Lemma grows_register_module ns : grows (register_module ct ns).
Proof.
  unfold register_module. apply grows_for_each, Forall_forall. intros name _.
  destruct (underscore name); [by apply grows_still|].
  destruct (getattr ns name) as [[cls|]|]; [|by apply grows_still..].
  unfold register_attr, issubclass_Descriptor. intros c.
  unfold mbind, M_bind. destruct (ct cls); simpl.
  - apply grows_register_type.
  - by exists [].
Qed.

Lemma grows_register1 o : grows (register1 ct o).
Proof.
  induction o as [v|i|c|ns|xs IH|xs IH] using pyobj_nested_ind.
  - destruct v; [apply grows_register_one..|]. simpl.
    case_bool_decide; by apply grows_still.
  - apply grows_register_one.
  - apply grows_register_type.
  - apply grows_register_module.
  - destruct xs as [|x xs]; [by apply grows_still|].
    assert (grows (for_each (register1 ct) (x :: xs))) as Hseq
      by by apply grows_for_each.
    destruct x as [v|i|cls|ns|ys|ys]; try exact Hseq.
    simpl. unfold Descriptor.instantiate. intros c. unfold mbind, M_bind.
    destruct (match ct cls with
              | DescriptorType d => c_init d xs
              | PlainType init => init xs
              end); simpl;
      [exact (grows_register_one (OInst (Inst cls xs)) c) | by exists []].
  - by apply grows_for_each.
Qed.

Lemma adds_molecule l c : molecule (adds l c) = molecule c.
Proof.
  revert c. induction l as [|i l IH]; intros c; [done|]. simpl. rewrite IH.
  unfold Registration.add. by destruct (Descriptor.class_of ct i).
Qed.

Lemma adds_flags l c :
  explicitH (adds l c) = explicitH c || existsb (requires ct c_explicit_hydrogens) l
  ∧ gasteiger (adds l c) = gasteiger c || existsb (requires ct c_gasteiger_charges) l
  ∧ kekulize (adds l c) = kekulize c || existsb (requires ct c_kekulize) l.
Proof.
  revert c. induction l as [|i l IH]; intros c; simpl.
  { by rewrite !orb_false_r. }
  destruct (IH (Registration.add ct c i)) as (-> & -> & ->).
  unfold Registration.add, requires.
  destruct (Descriptor.class_of ct i) as [d|]; simpl; [|done].
  destruct (c_explicit_hydrogens d), (c_gasteiger_charges d), (c_kekulize d);
    simpl; rewrite ?orb_true_r, ?orb_false_r; done.
Qed.

Lemma grows_register descs : grows (register ct descs).
Proof. apply grows_for_each, Forall_forall. intros o _. apply grows_register1. Qed.

(** X1. However a registration ends, with or without an exception: the
    descriptors there were are still there, in their order, followed by new
    ones that are all instances of descriptor classes; each flag is set when
    it was set or a new descriptor requires it; the [molecule] attribute is
    not touched. *)
Theorem register_only_appends (descs : list pyobj) (c : Calculator.t) :
  let c' := (register ct descs c).2 in
  ∃ l, Forall (λ i, is_Some (Descriptor.class_of ct i)) l
     ∧ descriptors c' = descriptors c ++ l
     ∧ explicitH c' = explicitH c || existsb (requires ct c_explicit_hydrogens) l
     ∧ gasteiger c' = gasteiger c || existsb (requires ct c_gasteiger_charges) l
     ∧ kekulize c' = kekulize c || existsb (requires ct c_kekulize) l
     ∧ molecule c' = molecule c.
Proof.
  intros c'. subst c'.
  destruct (grows_register descs c) as (l & Hl & ->). exists l.
  destruct (adds_flags l c) as (He & Hg' & Hk).
  split_and!; try done.
  - eapply Forall_impl; [exact Hl|]. intros i Hi. by apply bool_decide_unpack in Hi.
  - by apply adds_descriptors.
  - apply adds_molecule.
Qed.

(** X2. What [Calculator( *descs )] holds, however the registration ended: only
    instances of descriptor classes, and each flag is set exactly when one of
    them requires it. *)
Theorem calculator_flags_aggregate (descs : list pyobj) :
  let c := (__init__ ct descs).2 in
  Forall (λ i, is_Some (Descriptor.class_of ct i)) (descriptors c)
  ∧ explicitH c = existsb (requires ct c_explicit_hydrogens) (descriptors c)
  ∧ gasteiger c = existsb (requires ct c_gasteiger_charges) (descriptors c)
  ∧ kekulize c = existsb (requires ct c_kekulize) (descriptors c)
  ∧ molecule c = None.
Proof.
  intros c. subst c. unfold __init__.
  destruct (grows_register descs
              {| descriptors := []; explicitH := false; gasteiger := false;
                 kekulize := false; molecule := None |})
    as (l & Hl & ->).
  destruct (adds_flags l
              {| descriptors := []; explicitH := false; gasteiger := false;
                 kekulize := false; molecule := None |}) as (-> & -> & ->).
  rewrite adds_descriptors, adds_molecule by done. simpl.
  split_and!; try done.
  eapply Forall_impl; [exact Hl|]. intros i Hi. by apply bool_decide_unpack in Hi.
Qed.

(** X3. Registering two lists one after the other is registering their
    concatenation: [Calculator( *xs, *ys )] is [Calculator( *xs )] followed
    by [register( *ys )], and an exception in the first part ends both. *)
Theorem register_app (xs ys : list pyobj) (c : Calculator.t) :
  register ct (xs ++ ys) c
  = match register ct xs c with
    | (Ok _, c') => register ct ys c'
    | (Raise e, c') => (Raise e, c')
    | (Exhausted, c') => (Exhausted, c')
    end.
Proof.
  unfold register. revert c. induction xs as [|x xs IH]; intros c; [done|].
  rewrite <- app_comm_cons, !for_each_cons.
  destruct (register1 ct x c) as [[[]|e|] c']; [apply IH|done..].
Qed.

End registration_grows.

(** ** The variant cache: what a request returns *)

Section variants.
Context `{RDKit}.
Import Molecule Variants.

Lemma hydration_cached e m :
  cache (hydration e m).2 !! (e, false, false) = Some (hydration e m).1.
Proof.
  unfold hydration, key. destruct (cache m !! (e, false, false)) eqn:Hc; [done|].
  destruct e; simpl; apply lookup_insert_eq.
Qed.

Lemma kekulize_cached e m :
  cache (kekulize e m).2 !! (e, true, false) = Some (kekulize e m).1.
Proof.
  unfold kekulize, key. destruct (cache m !! (e, true, false)) eqn:Hc; [done|].
  destruct (hydration e m) as [h m1]. simpl. apply lookup_insert_eq.
Qed.

Lemma gasteiger_cached e k m :
  cache (gasteiger e k m).2 !! (e, k, true) = Some (gasteiger e k m).1.
Proof.
  unfold gasteiger, key. destruct (cache m !! (e, k, true)) eqn:Hc; [done|].
  destruct (if k then kekulize e m else hydration e m) as [r m1]. simpl.
  apply lookup_insert_eq.
Qed.

Lemma get_cached e k g m :
  cache (get e k g m).2 !! (e, k, g) = Some (get e k g m).1.
Proof.
  unfold get, key. destruct (cache m !! (e, k, g)) eqn:Hc; [done|].
  destruct g; [apply gasteiger_cached|].
  destruct k; [apply kekulize_cached | apply hydration_cached].
Qed.

(** X4. A request for a cached variant returns it and changes nothing; every
    request leaves its variant cached, so that the same request made again
    returns the same molecule and changes nothing. *)
Theorem get_again (e k g : bool) (m : Molecule.t) :
  (∀ r, cache m !! (e, k, g) = Some r → get e k g m = (r, m))
  ∧ get e k g (get e k g m).2 = get e k g m.
Proof.
  split.
  - intros r Hr. unfold get, key. by rewrite Hr.
  - pose proof (get_cached e k g m) as Hc.
    destruct (get e k g m) as [r m'] eqn:Hget. simpl in *.
    unfold get, key. by rewrite Hc.
Qed.

Lemma stored_store evs k r : stored (evs ++ [Store k r]) = stored evs ++ [k].
Proof. unfold stored. by rewrite omap_app. Qed.

Lemma stored_call evs ev :
  (∀ k r, ev ≠ Store k r) → stored (evs ++ [ev]) = stored evs.
Proof.
  intros Hev. unfold stored. rewrite omap_app. simpl.
  destruct ev; rewrite ?app_nil_r; try done. by destruct (Hev k r).
Qed.

Lemma allocating_snoc ks (k : flags) :
  length (allocating (ks ++ [k]))
  = (length (allocating ks) + if k.2 then 0 else 1)%nat.
Proof.
  unfold allocating. rewrite filter_app, length_app. f_equal.
  by destruct k as [[e b] []].
Qed.

Lemma Bounded_init (o : Mol) : Bounded (__init__ o).
Proof. split; simpl; [intros k r; by rewrite lookup_empty | done]. Qed.

(** A molecule is created and cached under a key without charges. *)
Lemma Bounded_new (m : Molecule.t) (k : flags) (heap' : list Mol) (evs : list event) :
  Bounded m → k.2 = false →
  length heap' = S (length (heap m)) →
  stored evs = stored (events m) →
  Bounded {| orig := orig m; heap := heap';
             cache := <[k := length (heap m)]> (cache m);
             events := evs ++ [Store k (length (heap m))] |}.
Proof.
  intros [Hr Hh] Hk Hlen Hevs. split; simpl.
  - intros k' r. rewrite lookup_insert. case_decide.
    + intros [= <-]. lia.
    + intros Hl. specialize (Hr _ _ Hl). lia.
  - rewrite stored_store, allocating_snoc, Hevs, Hk, <- Hh. lia.
Qed.

Lemma hydration_Bounded e m : Bounded m → Bounded (hydration e m).2.
Proof.
  intros HB. unfold hydration, key.
  destruct (cache m !! (e, false, false)) eqn:Hc; [done|].
  destruct e; simpl; apply (Bounded_new m); try done.
  all: simpl; first [ by apply stored_call | rewrite length_app; simpl; lia ].
Qed.

Lemma kekulize_Bounded e m : Bounded m → Bounded (kekulize e m).2.
Proof.
  intros HB. unfold kekulize, key.
  destruct (cache m !! (e, true, false)) eqn:Hc; [done|].
  pose proof (hydration_Bounded e m HB) as HB1.
  destruct (hydration e m) as [h m1]. simpl in *.
  apply (Bounded_new m1); try done; simpl.
  - rewrite length_alter, length_app. simpl. lia.
  - by rewrite !stored_call.
Qed.

Lemma gasteiger_Bounded e k m : Bounded m → Bounded (gasteiger e k m).2.
Proof.
  intros HB. unfold gasteiger, key.
  destruct (cache m !! (e, k, true)) eqn:Hc; [done|].
  assert (Bounded (if k then kekulize e m else hydration e m).2
          ∧ cache (if k then kekulize e m else hydration e m).2 !! (e, k, false)
            = Some (if k then kekulize e m else hydration e m).1) as [[Hr Hh] Hin].
  { destruct k; split;
      auto using kekulize_Bounded, hydration_Bounded, kekulize_cached, hydration_cached. }
  destruct (if k then kekulize e m else hydration e m) as [r m1]. simpl in *.
  split; simpl.
  - intros k' r'. rewrite length_alter, lookup_insert. case_decide.
    + intros [= <-]. by eapply Hr.
    + apply Hr.
  - rewrite length_alter, stored_store, allocating_snoc, stored_call by done.
    simpl. lia.
Qed.

Lemma get_Bounded e k g m : Bounded m → Bounded (get e k g m).2.
Proof.
  intros HB. unfold get, key. destruct (cache m !! (e, k, g)); [done|].
  destruct g; [by apply gasteiger_Bounded|].
  destruct k; [by apply kekulize_Bounded | by apply hydration_Bounded].
Qed.

Lemma gets_Bounded reqs m : Bounded m → Bounded (gets reqs m).
Proof.
  revert m. induction reqs as [|[[e k] g] reqs IH]; intros m HB; [done|].
  apply IH. by apply get_Bounded.
Qed.

(** X5. Whatever was requested of a [Molecule]: every cached variant is one of
    the molecules it created, and it created one molecule for each cached
    key without charges and none for a key with charges; the molecule that a
    further request returns is among them. *)
Theorem variants_allocated (o : Mol) (reqs : list flags) (e k g : bool) :
  let m := gets reqs (__init__ o) in
  (∀ (k' : flags) (r : nat), cache m !! k' = Some r → (r < length (heap m))%nat)
  ∧ length (heap m) = length (allocating (stored (events m)))
  ∧ ((get e k g m).1 < length (heap (get e k g m).2))%nat.
Proof.
  intros m.
  pose proof (gets_Bounded reqs _ (Bounded_init o)) as HB. fold m in HB.
  split_and!; [apply HB | apply HB |].
  eapply (bounded_ref _ (get_Bounded e k g m HB)), get_cached.
Qed.

Lemma Plain_init (o : Mol) : Plain (__init__ o).
Proof. split; simpl; intros; by rewrite ?lookup_empty in *. Qed.

(** A molecule with the value of its chain is created, the others keep their
    values, and it is cached under a key without charges. *)
Lemma Plain_new (m : Molecule.t) (k : flags) (heap' : list Mol) (evs : list event) :
  Plain m → k.2 = false →
  length heap' = S (length (heap m)) →
  (∀ r v, heap m !! r = Some v → heap' !! r = Some v) →
  heap' !! length (heap m) = Some (chain k (orig m)) →
  Plain {| orig := orig m; heap := heap';
           cache := <[k := length (heap m)]> (cache m); events := evs |}.
Proof.
  intros [Hc Hr Hv] Hk Hlen Hold Hnew. split; simpl.
  - intros e b. rewrite lookup_insert_ne; [apply Hc|]. by intros ->.
  - intros k' r. rewrite lookup_insert. case_decide.
    + intros [= <-]. lia.
    + intros Hl. specialize (Hr _ _ Hl). lia.
  - intros k' r. rewrite lookup_insert. case_decide.
    + intros [= <-]. by subst k'.
    + intros Hl. by apply Hold, Hv.
Qed.

Lemma hydration_Plain e m :
  Plain m → Plain (hydration e m).2 ∧ orig (hydration e m).2 = orig m.
Proof.
  intros HP. unfold hydration, key.
  destruct (cache m !! (e, false, false)) eqn:Hc; [done|].
  destruct e; simpl; (split; [|done]); apply (Plain_new m); try done; simpl.
  all: first [ rewrite length_app; simpl; lia
             | by intros r v ?; apply lookup_app_l_Some
             | by rewrite lookup_app_r, Nat.sub_diag ].
Qed.

Lemma kekulize_Plain e m :
  Plain m → Plain (kekulize e m).2 ∧ orig (kekulize e m).2 = orig m.
Proof.
  intros HP. unfold kekulize, key.
  destruct (cache m !! (e, true, false)) eqn:Hc; [done|].
  destruct (hydration_Plain e m HP) as [HP1 Ho1].
  pose proof (hydration_cached e m) as Hh.
  destruct (hydration e m) as [h m1]. simpl in *.
  split; [|done].
  assert (deref m1 h = chain (e, false, false) (orig m1)) as Hd.
  { unfold deref. by rewrite (plain_value _ HP1 _ _ Hh). }
  apply (Plain_new m1); try done; simpl.
  - rewrite length_alter, length_app. simpl. lia.
  - intros r v Hr. rewrite list_lookup_alter_ne.
    + by apply lookup_app_l_Some.
    + apply lookup_lt_Some in Hr. lia.
  - rewrite list_lookup_alter, lookup_app_r, Nat.sub_diag by done. simpl.
    rewrite decide_True by done. by rewrite Hd.
Qed.

Lemma gets_Plain reqs m :
  Forall (λ q : flags, q.2 = false) reqs → Plain m →
  Plain (gets reqs m) ∧ orig (gets reqs m) = orig m.
Proof.
  intros Hreqs. revert m.
  induction Hreqs as [|[[e k] g] reqs Hg _ IH]; intros m HP; [done|].
  simpl in Hg. subst g.
  assert (Plain (get e k false m).2 ∧ orig (get e k false m).2 = orig m)
    as [HP1 Ho1].
  { unfold get, key. destruct (cache m !! (e, k, false)); [done|].
    destruct k; [by apply kekulize_Plain | by apply hydration_Plain]. }
  destruct (IH _ HP1) as [HP2 Ho2]. split; [exact HP2|].
  simpl. by rewrite Ho2.
Qed.

(** X6. As long as no charged variant is requested, the value of a variant does
    not depend on what was requested before: every cached variant, and the
    variant that a further request returns, is the canonicalised original
    with hydrogens added or removed and, for a kekulized variant, kekulized
    once more. *)
Theorem uncharged_variants_have_chain_value (o : Mol) (reqs : list flags)
    (e k : bool) :
  Forall (λ q : flags, q.2 = false) reqs →
  let m := gets reqs (__init__ o) in
  (∀ (k' : flags) (r : nat), cache m !! k' = Some r →
     deref m r = chain k' (Chem_Kekulize o))
  ∧ deref (get e k false m).2 (get e k false m).1
    = chain (e, k, false) (Chem_Kekulize o).
Proof.
  intros Hreqs m.
  destruct (gets_Plain reqs _ Hreqs (Plain_init o)) as [HP Ho]. fold m in HP, Ho.
  simpl in Ho. split.
  - intros k' r Hr. unfold deref. by rewrite (plain_value _ HP _ _ Hr), Ho.
  - destruct (gets_Plain [(e, k, false)] m) as [HP1 Ho1]; [by constructor|done|].
    simpl in HP1, Ho1. unfold deref.
    by rewrite (plain_value _ HP1 _ _ (get_cached e k false m)), Ho1, Ho.
Qed.

End variants.

(** ** Evaluation: hits, misses and errors *)

Section evaluation_more.
Context `{RDKit} `{Python} (ct : ClassTable).
Import Calculator Pass.

#[local] Abbreviation _calculate := (Calculator._calculate ct).
#[local] Abbreviation next := (Calculator.next ct).
#[local] Abbreviation consume := (Calculator.consume ct).

Lemma cache_of_is_Some tr (c : gmap Key PyVal) (k : Key) :
  is_Some (c !! k) → is_Some (Pass.cache_of tr c !! k).
Proof.
  revert c. induction tr as [|ev tr IH]; intros c Hk; [done|].
  simpl. apply IH. destruct ev as [| k' r]; [done|].
  rewrite lookup_insert_is_Some. destruct (decide (k' = k)); auto.
Qed.

Lemma resolve_deps_None fuel deps s :
  Forall (λ x : string * option Dep, x.2 = None) deps →
  resolve_deps ct fuel deps s = (Ok ((λ x, (x.1, PNone)) <$> deps), s).
Proof.
  induction 1 as [|[name dep] deps Hx _ IH]; [done|].
  simpl in Hx. subst dep. unfold resolve_deps in *.
  rewrite for_collect_cons. unfold mret at 1, M_ret at 1. by rewrite IH.
Qed.

(** X7. A dependency declared as [None] is passed on as [None] without any
    resolution: a descriptor all of whose dependencies are [None], when it is
    not cached, is computed with [None] for each name at once, whatever the
    recursion left. *)
Theorem none_dependencies_pass_through fuel i d s :
  Descriptor.class_of ct i = Some d →
  Descriptor.descriptor_key d i ≫= (cache s !!.) = None →
  Forall (λ x, x.2 = None) (Descriptor.dependencies d i) →
  _calculate (S fuel) (DInst i) s
  = finish d i ((λ x, (x.1, PNone)) <$> Descriptor.dependencies d i) s.
Proof.
  intros Hd Hmiss Hnone. rewrite calculate_unfold, Hd, Hmiss.
  unfold mbind at 1, M_bind at 1. by rewrite resolve_deps_None.
Qed.

Lemma calculate_Ok_cached fuel i s v s' :
  _calculate fuel (DInst i) s = (Ok v, s') →
  ∃ d k, Descriptor.class_of ct i = Some d
       ∧ Descriptor.descriptor_key d i = Some k
       ∧ cache s' !! k = Some v.
Proof.
  destruct fuel as [|fuel]; [done|]. rewrite calculate_unfold.
  destruct (Descriptor.class_of ct i) as [d|] eqn:Hd; [|done].
  destruct (Descriptor.descriptor_key d i ≫= (cache s !!.)) as [r|] eqn:Hr.
  - intros [= -> ->]. apply bind_Some in Hr as (k & Hk & Hv). by exists d, k.
  - unfold mbind at 1, M_bind at 1.
    destruct (resolve_deps ct fuel (Descriptor.dependencies d i) s)
      as [[args|e|] s1]; [|done..].
    intros Hfin.
    destruct (finish_cases d i args s1 _ _ Hfin)
      as [(_ & [=] & _)|[(mol & _ & [=])|(mol & k & v' & Hrun & [= <-] & Hk & _)]].
    exists d, k. split_and!; [done..|].
    rewrite (run_cache _ _ _ Hrun). simpl. apply lookup_insert_eq.
Qed.

(** X8. The value that the resolution of a descriptor instance returns is in the
    cache under the descriptor's key when the resolution returns, so that
    resolving the instance again returns the same value and does nothing
    else. *)
Theorem resolved_instance_is_cached fuel fuel' i s v s' :
  _calculate fuel (DInst i) s = (Ok v, s') →
  ∃ k, identity ct i = Some k
     ∧ cache s' !! k = Some v
     ∧ _calculate (S fuel') (DInst i) s' = (Ok v, s').
Proof.
  intros Hcalc. destruct (calculate_Ok_cached _ _ _ _ _ Hcalc) as (d & k & Hd & Hk & Hv).
  exists k. split_and!; [by rewrite (identity_class ct i d)|done|].
  rewrite calculate_unfold, Hd, Hk. simpl. by rewrite Hv.
Qed.

(** X9. A descriptor whose [descriptor_key] is [None] never yields a value.  When
    it has no dependencies its [calculate] is called all the same, on the
    variant it asks for; the pass then ends with what [calculate] raised or
    with the [ValueError] for the missing key, and nothing is cached. *)
Theorem keyless_descriptor_never_yields fuel i d s m :
  Descriptor.class_of ct i = Some d →
  Descriptor.descriptor_key d i = None →
  (∀ v, (_calculate fuel (DInst i) s).1 ≠ Ok v)
  ∧ (Descriptor.dependencies d i = [] →
     molecule (calc s) = Some m →
     let res := Molecule.get (c_explicit_hydrogens d) (c_kekulize d)
                             (c_gasteiger_charges d) m in
     let mol := Molecule.deref res.2 res.1 in
     (_calculate (S fuel) (DInst i) s).1 = Raise (failure d i mol [])
     ∧ trace (_calculate (S fuel) (DInst i) s).2 = trace s ++ [Invoke i mol []]
     ∧ cache (_calculate (S fuel) (DInst i) s).2 = cache s).
Proof.
  intros Hd Hk. split.
  - intros v. destruct fuel as [|fuel]; [done|].
    rewrite calculate_unfold, Hd, Hk. simpl.
    unfold mbind at 1, M_bind at 1.
    destruct (resolve_deps ct fuel (Descriptor.dependencies d i) s)
      as [[args|e|] s1]; [|done..].
    destruct (finish d i args s1) as [r s'] eqn:Hfin. simpl.
    destruct (finish_cases d i args s1 _ _ Hfin)
      as [(_ & -> & _)|[(mol & _ & ->)|(mol & k & v' & _ & _ & Hk' & _)]];
      [done..|congruence].
  - intros Hdeps Hm res mol.
    assert (_calculate (S fuel) (DInst i) s = finish d i [] s) as ->.
    { by rewrite calculate_unfold, Hd, Hk, Hdeps. }
    assert (∃ c', finish d i [] s
                  = (Raise (failure d i mol []),
                     {| calc := c'; cache := cache s;
                        trace := trace s ++ [Invoke i mol []] |})) as [c' ->];
      [|done].
    subst mol res. unfold finish.
    unfold mbind at 1, M_bind at 1. unfold molecule_get. rewrite Hm.
    destruct (Molecule.get _ _ _ m) as [ref m'].
    unfold mbind at 1, M_bind at 1. simpl.
    unfold mbind at 1, M_bind at 1. unfold failure. rewrite Hk.
    destruct (c_calculate d (i_args i) (Molecule.deref m' ref) []); by eexists.
Qed.

(** X10. A key as a dependency.  When its value is cached the value is returned
    and the descriptor is not even created.  When it is not cached and the
    class does not take the arguments of the key, the [TypeError] of the
    constructor becomes a [ValueError]; when the class takes them but is no
    descriptor class, the resolution ends with [AttributeError].  Nothing is
    called or cached in any of these cases. *)
Theorem key_dependency_edge_cases fuel k s :
  (∀ v, cache s !! k = Some v → _calculate (S fuel) (DKey k) s = (Ok v, s))
  ∧ (cache s !! k = None →
     match ct (Key.cls k) with
     | DescriptorType d =>
         c_init d (OVal <$> Key.args k) = false →
         _calculate (S fuel) (DKey k) s = (Raise (ValueError CannotCreate), s)
     | PlainType init =>
         _calculate (S fuel) (DKey k) s
         = (Raise (if init (OVal <$> Key.args k) then AttributeError
                   else ValueError CannotCreate), s)
     end).
Proof.
  split.
  - intros v Hv. by rewrite calculate_unfold, Hv.
  - intros Hmiss. destruct (ct (Key.cls k)) as [d|init] eqn:Hk.
    + intros Hinit. by rewrite calculate_unfold, Hmiss, Hk, Hinit.
    + rewrite calculate_unfold, Hmiss, Hk. by destruct (init (OVal <$> Key.args k)).
Qed.

(** X11. A key and the descriptor it creates: for a class that takes the
    arguments and inherits [descriptor_key], the key of the created
    descriptor is the key it was created from exactly when the key has no
    arguments. *)
Theorem create_then_default_key k d (s : Env) :
  ct (Key.cls k) = DescriptorType d →
  c_init d (OVal <$> Key.args k) = true →
  c_descriptor_key d = None →
  Key_create ct k s = (Ok (target (DKey k)), s)
  ∧ (Descriptor.descriptor_key d (target (DKey k)) = Some k ↔ Key.args k = []).
Proof.
  intros Hk Hinit Hkey. split.
  - unfold Key_create, Descriptor.instantiate. by rewrite Hk, Hinit.
  - unfold Descriptor.descriptor_key, Descriptor.make_key. rewrite Hkey. simpl.
    destruct k as [cls args]; simpl. split; [by intros [= <-] | by intros ->].
Qed.

(** X12. Evaluation never takes an entry out of the result cache: a key that is
    cached stays cached through any resolution and any number of calls of
    [next]. *)
Theorem cache_only_grows fuel n dep s g self (k : Key) :
  (is_Some (cache s !! k) → is_Some (cache (_calculate fuel dep s).2 !! k))
  ∧ (is_Some (g_cache g !! k) →
     is_Some (g_cache (consume fuel n g self).1.2 !! k)).
Proof.
  split.
  - intros Hk. destruct (calculate_run ct fuel dep s) as (new & Hrun & _).
    rewrite (run_cache _ _ _ Hrun). by apply cache_of_is_Some.
  - intros Hk. destruct (consume fuel n g self) as [[[ps r] g'] self'] eqn:Hc.
    destruct (consume_run ct _ _ _ _ _ _ _ _ Hc) as (new & Hrun & _).
    pose proof (run_cache _ _ _ Hrun) as Hcache. simpl in *.
    rewrite Hcache. by apply cache_of_is_Some.
Qed.

(** X13. The pairs come in the order of registration, one for each registered
    descriptor and named by its [descriptor_name]: what [n] calls of [next]
    yield are the names of the first pending descriptors, and when none of
    the calls raised there were [n] pending descriptors and the others are
    still pending. *)
Theorem pairs_in_registration_order fuel n g self ps r g' self' :
  consume fuel n g self = (ps, r, g', self') →
  ps.*1 = Naming.name_of ct <$> take (length ps) (pending g)
  ∧ (length ps ≤ n)%nat
  ∧ (r = Ok () → length ps = n ∧ pending g' = drop n (pending g)).
Proof.
  revert g self ps r g' self'. induction n as [|n IH]; intros g self ps r g' self'.
  { intros [= <- <- <- <-]. by rewrite drop_0. }
  rewrite consume_S, next_unfold.
  destruct (pending g) as [|desc rest] eqn:Hp.
  { intros [= <- <- <- <-]. split_and!; [done|simpl; lia|done]. }
  destruct (Descriptor.class_of ct desc) as [d|] eqn:Hd.
  2:{ intros [= <- <- <- <-]. split_and!; [done|simpl; lia|done]. }
  destruct (Calculator._calculate ct fuel (DInst desc) (env_of g self))
    as [[v|e|] s1].
  - destruct (consume fuel n _ _) as [[[ps2 r2] g2] self2] eqn:Hc.
    intros [= <- <- <- <-].
    destruct (IH _ _ _ _ _ _ Hc) as (Hnames & Hlen & Hok).
    simpl in Hnames, Hlen, Hok. split_and!.
    + rewrite fmap_cons. cbn [length take]. rewrite fmap_cons, <- Hnames.
      unfold Naming.name_of. by rewrite Hd.
    + simpl. lia.
    + intros Hr. destruct (Hok Hr) as [<- ->]. done.
  - intros [= <- <- <- <-]. split_and!; [done|simpl; lia|done].
  - intros [= <- <- <- <-]. split_and!; [done|simpl; lia|done].
Qed.

(** X14. A descriptor registered twice in a row: the second pair is the first
    pair again, and yielding it calls nothing and caches nothing. *)
Theorem duplicate_shares_cached_value fuel fuel' g self desc rest p g1 self1 :
  pending g = desc :: desc :: rest →
  next fuel g self = (Ok p, g1, self1) →
  next (S fuel') g1 self1
  = (Ok p, {| pending := rest; g_cache := g_cache g1; g_trace := g_trace g1 |},
     self1).
Proof.
  intros Hp. rewrite next_unfold, Hp.
  destruct (Descriptor.class_of ct desc) as [d|] eqn:Hd; [|done].
  destruct (Calculator._calculate ct fuel (DInst desc) (env_of g self))
    as [[v|e|] s1] eqn:Hcalc; [|done..].
  intros [= <- <- <-].
  destruct (calculate_Ok_cached _ _ _ _ _ Hcalc) as (d' & k & Hd' & Hk & Hv).
  assert (d' = d) as -> by congruence.
  rewrite next_unfold. cbn [pending]. rewrite Hd, calculate_unfold, Hd, Hk.
  simpl. by rewrite Hv.
Qed.

(** X15. Calling a descriptor is resolving it in a pass of its own: the result,
    or the exception, is that of [_calculate] on the descriptor with an
    empty cache and a new [Molecule] of the input. *)
Theorem descriptor_call_is_fresh_pass fuel self d mol :
  Descriptor.class_of ct self = Some d →
  Descriptor_call ct fuel self mol
  = (_calculate fuel (DInst self)
       {| calc := {| descriptors := [self];
                     explicitH := c_explicit_hydrogens d;
                     gasteiger := c_gasteiger_charges d;
                     kekulize := c_kekulize d;
                     molecule := Some (Molecule.__init__ mol) |};
          cache := ∅; trace := [] |}).1.
Proof.
  intros Hd. unfold Descriptor_call, Calculator.__init__, register.
  rewrite for_each_cons. simpl. rewrite Hd. simpl.
  rewrite next_unfold. simpl. rewrite Hd. unfold env_of. simpl.
  destruct (c_explicit_hydrogens d), (c_gasteiger_charges d), (c_kekulize d);
    by destruct (Calculator._calculate ct fuel (DInst self) _) as [[v|e|] s].
Qed.

End evaluation_more.

(** ** Evaluation: what does not matter and what does not change *)

Section molecule_input.
Context `{RDKit}.
Import Molecule.

Lemma hydration_orig e m : orig (hydration e m).2 = orig m.
Proof. unfold hydration, key. destruct (cache m !! _); [done|]. by destruct e. Qed.

Lemma kekulize_orig e m : orig (kekulize e m).2 = orig m.
Proof.
  unfold kekulize, key. destruct (cache m !! _); [done|].
  pose proof (hydration_orig e m) as Ho.
  by destruct (hydration e m) as [h m1].
Qed.

Lemma gasteiger_orig e k m : orig (gasteiger e k m).2 = orig m.
Proof.
  unfold gasteiger, key. destruct (cache m !! _); [done|].
  assert (orig (if k then kekulize e m else hydration e m).2 = orig m) as Ho.
  { destruct k; [apply kekulize_orig | apply hydration_orig]. }
  by destruct (if k then kekulize e m else hydration e m) as [r m1].
Qed.

Lemma get_orig e k g m : orig (get e k g m).2 = orig m.
Proof.
  unfold get, key. destruct (cache m !! _); [done|].
  destruct g; [apply gasteiger_orig|].
  destruct k; [apply kekulize_orig | apply hydration_orig].
Qed.

End molecule_input.

Section evaluation_structure.
Context `{RDKit} `{Python} (ct : ClassTable).
Import Calculator Pass Structure.

#[local] Abbreviation _calculate := (Calculator._calculate ct).
#[local] Abbreviation next := (Calculator.next ct).
#[local] Abbreviation consume := (Calculator.consume ct).

(** *** Recursion depth *)

Lemma extends_refl {S A} (m : M S A) : extends m m.
Proof. by intros s _. Qed.

Lemma extends_bind {S A B} (m m' : M S A) (f f' : A → M S B) :
  extends m m' → (∀ a, extends (f a) (f' a)) → extends (m ≫= f) (m' ≫= f').
Proof.
  intros Hm Hf s Hne. unfold mbind, M_bind in *. specialize (Hm s).
  destruct (m s) as [[a|e|] s1]; cbn [fst snd] in *.
  - rewrite Hm by done. by apply Hf.
  - by rewrite Hm.
  - done.
Qed.

Lemma extends_for_collect {S A B} (body body' : A → M S B) (xs : list A) :
  (∀ x, extends (body x) (body' x)) →
  extends (for_collect body xs) (for_collect body' xs).
Proof.
  intros Hb. induction xs as [|x xs IH]; intros s Hne; [done|].
  rewrite for_collect_cons in Hne. rewrite !for_collect_cons.
  specialize (Hb x s).
  destruct (body x s) as [[y|e|] s1]; cbn [fst snd] in *; [|by rewrite Hb|done].
  rewrite Hb by done. specialize (IH s1).
  destruct (for_collect body xs s1) as [[ys|e|] s2]; cbn [fst snd] in *;
    [by rewrite IH|by rewrite IH|done].
Qed.

Lemma resolve_deps_extends fuel deps :
  (∀ dep, extends (_calculate fuel dep) (_calculate (S fuel) dep)) →
  extends (resolve_deps ct fuel deps) (resolve_deps ct (S fuel) deps).
Proof.
  intros IH. unfold resolve_deps. apply extends_for_collect.
  intros [name [dep|]]; [|apply extends_refl].
  apply extends_bind; [apply IH | intros r; apply extends_refl].
Qed.

Lemma calculate_extends fuel dep :
  extends (_calculate fuel dep) (_calculate (S fuel) dep).
Proof.
  revert dep. induction fuel as [|fuel IH]; intros dep s Hne; [by destruct Hne|].
  rewrite calculate_unfold in Hne. rewrite !calculate_unfold.
  pose proof (λ d i, extends_bind _ _ _ _ (resolve_deps_extends fuel
                (Descriptor.dependencies d i) IH)
                (λ args, extends_refl (finish d i args)) s) as Hmiss.
  destruct dep as [i|k].
  - destruct (Descriptor.class_of ct i) as [d|]; [|done].
    destruct (Descriptor.descriptor_key d i ≫= (cache s !!.)); [done|].
    by apply Hmiss.
  - destruct (cache s !! k); [done|].
    destruct (ct (Key.cls k)) as [d|init]; [|done].
    destruct (c_init d (OVal <$> Key.args k)); [|done]. by apply Hmiss.
Qed.

(** X16. A resolution that ends within some depth of recursion, with a value or
    with an exception, ends in the same way and in the same state at every
    greater depth. *)
Theorem calculate_fuel_monotone fuel n dep s :
  (_calculate fuel dep s).1 ≠ Exhausted →
  _calculate (fuel + n)%nat dep s = _calculate fuel dep s.
Proof.
  intros Hne. induction n as [|n IH]; [by rewrite Nat.add_0_r|].
  rewrite Nat.add_succ_r, <- IH. apply calculate_extends. by rewrite IH.
Qed.

(** *** The aggregate flags *)

Lemma commutes_bind {A B} f (m : M Env A) (k : A → M Env B) :
  commutes f m → (∀ a, commutes f (k a)) → commutes f (m ≫= k).
Proof.
  intros Hm Hk s. unfold mbind, M_bind. rewrite (Hm s).
  destruct (m s) as [[a|e|] s1]; cbn [fst snd]; [apply Hk|done..].
Qed.

Lemma commutes_for_collect {A B} f (body : A → M Env B) (xs : list A) :
  (∀ x, commutes f (body x)) → commutes f (for_collect body xs).
Proof.
  intros Hb. induction xs as [|x xs IH]; intros s; [done|].
  rewrite !for_collect_cons, (Hb x s).
  destruct (body x s) as [[y|e|] s1]; cbn [fst snd]; [|done..].
  rewrite (IH s1). by destruct (for_collect body xs s1) as [[ys|e|] s2].
Qed.

Lemma finish_reflag e g k d i args : commutes (reflag e g k) (finish d i args).
Proof.
  unfold finish. apply commutes_bind.
  { intros s. unfold molecule_get.
    change (molecule (calc (reflag e g k s))) with (molecule (calc s)).
    destruct (molecule (calc s)) as [m|] eqn:Em.
    - by destruct (Molecule.get _ _ _ m).
    - unfold reflag. simpl. by rewrite Em. }
  intros mol. apply commutes_bind; [by intros s|]. intros _.
  apply commutes_bind.
  { by destruct (c_calculate d (i_args i) mol args). }
  intros r. destruct (Descriptor.descriptor_key d i); [|by intros s].
  apply commutes_bind; [by intros s|]. by intros [] s.
Qed.

Lemma calculate_reflag e g k fuel dep :
  commutes (reflag e g k) (_calculate fuel dep).
Proof.
  revert dep. induction fuel as [|fuel IH]; intros dep s; [done|].
  assert (∀ deps, commutes (reflag e g k) (resolve_deps ct fuel deps)) as Hres.
  { intros deps. apply commutes_for_collect.
    intros [name [dep'|]]; [|by intros ?].
    apply commutes_bind; [apply IH | by intros ? ?]. }
  pose proof (λ d i, commutes_bind _ _ _ (Hres (Descriptor.dependencies d i))
                (λ args, finish_reflag e g k d i args) s) as Hmiss.
  rewrite !calculate_unfold.
  change (cache (reflag e g k s)) with (cache s).
  destruct dep as [i|key].
  - destruct (Descriptor.class_of ct i) as [d|]; [|done].
    destruct (Descriptor.descriptor_key d i ≫= (cache s !!.)); [done|].
    apply Hmiss.
  - destruct (cache s !! key); [done|].
    destruct (ct (Key.cls key)) as [d|init].
    + destruct (c_init d (OVal <$> Key.args key)); [|done]. apply Hmiss.
    + by destruct (init (OVal <$> Key.args key)).
Qed.

(** X17. The flags that registration gathers are never read: a resolution ends
    in the same way, with the same calls of [calculate] on the same
    molecules, the same cache and the same variants of the molecule,
    whatever the three flags of the calculator are. *)
Theorem aggregate_flags_never_read e g k fuel dep s :
  (_calculate fuel dep (reflag e g k s)).1 = (_calculate fuel dep s).1
  ∧ trace (_calculate fuel dep (reflag e g k s)).2
    = trace (_calculate fuel dep s).2
  ∧ cache (_calculate fuel dep (reflag e g k s)).2
    = cache (_calculate fuel dep s).2
  ∧ molecule (calc (_calculate fuel dep (reflag e g k s)).2)
    = molecule (calc (_calculate fuel dep s).2).
Proof. by rewrite calculate_reflag. Qed.

(** *** The input of a pass *)

Lemma keeps_bind {A B} (m : M Env A) (k : A → M Env B) :
  keeps_input m → (∀ a, keeps_input (k a)) → keeps_input (m ≫= k).
Proof.
  intros Hm Hk s. unfold mbind, M_bind. specialize (Hm s).
  destruct (m s) as [[a|e|] s1]; cbn [fst snd] in *; [|done..].
  by rewrite Hk.
Qed.

Lemma keeps_for_collect {A B} (body : A → M Env B) (xs : list A) :
  (∀ x, keeps_input (body x)) → keeps_input (for_collect body xs).
Proof.
  intros Hb. induction xs as [|x xs IH]; intros s; [done|].
  rewrite for_collect_cons. specialize (Hb x s).
  destruct (body x s) as [[y|e|] s1]; cbn [fst snd] in *; [|done..].
  specialize (IH s1).
  by destruct (for_collect body xs s1) as [[ys|e|] s2]; cbn [fst snd] in *;
    rewrite IH.
Qed.

Lemma finish_keeps d i args : keeps_input (finish d i args).
Proof.
  unfold finish. apply keeps_bind.
  { intros s. unfold molecule_get, input_of.
    destruct (molecule (calc s)) as [m|] eqn:Em; [|simpl; by rewrite Em].
    pose proof (get_orig (c_explicit_hydrogens d) (c_kekulize d)
                  (c_gasteiger_charges d) m) as Ho.
    destruct (Molecule.get _ _ _ m) as [r m']. simpl in *. by rewrite Ho. }
  intros mol. apply keeps_bind; [by intros s|]. intros _.
  apply keeps_bind.
  { by destruct (c_calculate d (i_args i) mol args). }
  intros r. destruct (Descriptor.descriptor_key d i); [|by intros s].
  apply keeps_bind; [by intros s|]. by intros [] s.
Qed.

Lemma calculate_keeps fuel dep : keeps_input (_calculate fuel dep).
Proof.
  revert dep. induction fuel as [|fuel IH]; intros dep s; [done|].
  assert (∀ deps, keeps_input (resolve_deps ct fuel deps)) as Hres.
  { intros deps. apply keeps_for_collect.
    intros [name [dep'|]]; [|by intros ?].
    apply keeps_bind; [apply IH | by intros ? ?]. }
  pose proof (λ d i, keeps_bind _ _ (Hres (Descriptor.dependencies d i))
                (λ args, finish_keeps d i args) s) as Hmiss.
  rewrite calculate_unfold.
  destruct dep as [i|key].
  - destruct (Descriptor.class_of ct i) as [d|]; [|done].
    destruct (Descriptor.descriptor_key d i ≫= (cache s !!.)); [done|].
    apply Hmiss.
  - destruct (cache s !! key); [done|].
    destruct (ct (Key.cls key)) as [d|init].
    + destruct (c_init d (OVal <$> Key.args key)); [|done]. apply Hmiss.
    + by destruct (init (OVal <$> Key.args key)).
Qed.

Lemma next_keeps fuel g self :
  input_of (next fuel g self).2 = input_of self.
Proof.
  rewrite next_unfold. destruct (pending g) as [|desc rest]; [done|].
  destruct (Descriptor.class_of ct desc) as [d|]; [|done].
  pose proof (calculate_keeps fuel (DInst desc) (env_of g self)) as Hk.
  by destruct (Calculator._calculate ct fuel (DInst desc) (env_of g self))
    as [[v|e|] s].
Qed.

Lemma consume_keeps fuel n g self :
  input_of (consume fuel n g self).2 = input_of self.
Proof.
  revert g self. induction n as [|n IH]; intros g self; [done|].
  rewrite consume_S. pose proof (next_keeps fuel g self) as Hn.
  destruct (next fuel g self) as [[[p|e|] g1] self1]; cbn [fst snd] in *;
    [|done..].
  specialize (IH g1 self1).
  destruct (consume fuel n g1 self1) as [[[ps r] g2] self2]. simpl in *.
  by rewrite IH.
Qed.

(** X18. Calls of [next] leave the calculator as registration and [__call__] set
    it up: the registered descriptors and the flags are as they were, and
    the [Molecule] it holds is one of the same input molecule. *)
Theorem pass_keeps_registry_and_input fuel n g self :
  let self' := (consume fuel n g self).2 in
  descriptors self' = descriptors self
  ∧ explicitH self' = explicitH self
  ∧ gasteiger self' = gasteiger self
  ∧ kekulize self' = kekulize self
  ∧ Molecule.orig <$> molecule self' = Molecule.orig <$> molecule self.
Proof.
  intros self'. subst self'.
  pose proof (consume_keeps fuel n g self) as Hin.
  destruct (consume fuel n g self) as [[[ps r] g'] self'] eqn:Hc.
  destruct (consume_run ct _ _ _ _ _ _ _ _ Hc) as (new & Hrun & _).
  split_and!; [apply Hrun..|exact Hin].
Qed.

(** *** The end of a pass *)

Lemma consume_Ok_pending fuel n g self ps g' self' :
  consume fuel n g self = (ps, Ok (), g', self') →
  pending g' = drop n (pending g).
Proof.
  revert g self ps g' self'. induction n as [|n IH]; intros g self ps g' self'.
  { intros [= <- <- <-]. by rewrite drop_0. }
  rewrite consume_S, next_unfold.
  destruct (pending g) as [|desc rest]; [done|].
  destruct (Descriptor.class_of ct desc) as [d|]; [|done].
  destruct (Calculator._calculate ct fuel (DInst desc) (env_of g self))
    as [[v|e|] s1]; [|done..].
  destruct (consume fuel n _ _) as [[[ps2 r2] g2] self2] eqn:Hc.
  intros [= <- -> <- <-]. by rewrite (IH _ _ _ _ _ Hc).
Qed.

(** X19. When a call of [next] raised, or every registered descriptor has been
    yielded, each further call of [next] raises [StopIteration] and does
    nothing else. *)
Theorem finished_generator_stops fuel fuel' n g self ps r g' self' :
  consume fuel n g self = (ps, r, g', self') →
  r ≠ Ok () ∨ (length (pending g) ≤ n)%nat →
  next fuel' g' self' = (Raise StopIteration, g', self').
Proof.
  intros Hc Hend. assert (pending g' = []) as Hp.
  { destruct (consume_run ct _ _ _ _ _ _ _ _ Hc) as (new & _ & _ & Hfin & _).
    destruct r as [[]|e|]; [|by apply Hfin..].
    destruct Hend as [?|Hlen]; [done|].
    rewrite (consume_Ok_pending _ _ _ _ _ _ _ Hc). by apply drop_ge. }
  by rewrite next_unfold, Hp.
Qed.

End evaluation_structure.

(** ** The further properties on concrete classes *)

Lemma uncharged_variants_have_chain_value_witness :
  let reqs := [(true, true, false); (false, false, false)] in
  let m := Molecule.gets reqs (Molecule.__init__ (Fixtures.Raw 0)) in
  Forall (λ q : Molecule.flags, q.2 = false) reqs
  ∧ Molecule.deref (Molecule.get true false false m).2
                   (Molecule.get true false false m).1
    = Fixtures.AddHs (Fixtures.Kekulized (Fixtures.Raw 0)).
Proof.
  intros reqs m.
  assert (Forall (λ q : Molecule.flags, q.2 = false) reqs) as Hreqs
    by repeat constructor.
  split; [exact Hreqs|].
  destruct (@uncharged_variants_have_chain_value Fixtures.symbolic (Fixtures.Raw 0) reqs true false
              Hreqs) as [_ Hv].
  exact Hv.
Defined.

Lemma get_again_witness :
  let m := Molecule.gets [(true, true, true)] (Molecule.__init__ (Fixtures.Raw 0)) in
  Molecule.cache m !! (true, true, false) = Some 1%nat
  ∧ Molecule.get true true false m = (1%nat, m).
Proof.
  intros m.
  assert (Molecule.cache m !! (true, true, false) = Some 1%nat) as Hc by reflexivity.
  split; [exact Hc|].
  destruct (@get_again Fixtures.symbolic true true false m) as [Hhit _]. exact (Hhit _ Hc).
Defined.

Lemma none_dependencies_pass_through_witness :
  let ct := Examples.optional in
  let s := Examples.start ct [OType 0] (Fixtures.Raw 0) in
  Descriptor.dependencies (Fixtures.descriptor [("a", None); ("b", None)]
                             (λ kwargs, inr (PInt (Z.of_nat (length kwargs)))))
                          (Inst 0 [])
  = [("a", None); ("b", None)]
  ∧ (Calculator._calculate ct 1 (DInst (Inst 0 [])) s).1 = Ok (PInt 2).
Proof.
  intros ct s. split; [reflexivity|].
  rewrite (none_dependencies_pass_through ct 0 (Inst 0 [])
             (Fixtures.descriptor [("a", None); ("b", None)]
                (λ kwargs, inr (PInt (Z.of_nat (length kwargs)))))
             s eq_refl eq_refl ltac:(repeat constructor)).
  reflexivity.
Defined.

Lemma resolved_instance_is_cached_witness :
  let ct := Fixtures.shared in
  let s := Examples.start ct [OType 1] (Fixtures.Raw 0) in
  let res := Calculator._calculate ct 2 (DInst (Inst 1 [])) s in
  res.1 = Ok (PInt 43)
  ∧ Calculator.cache res.2 !! Key.Key 1 [] = Some (PInt 43)
  ∧ Calculator._calculate ct 1 (DInst (Inst 1 [])) res.2 = (Ok (PInt 43), res.2).
Proof.
  intros ct s res.
  assert (Calculator._calculate ct 2 (DInst (Inst 1 [])) s = (Ok (PInt 43), res.2))
    as Heq by (vm_compute; reflexivity).
  destruct (resolved_instance_is_cached ct 2 0 (Inst 1 []) s (PInt 43) res.2 Heq)
    as (k & Hk & Hv & Hagain).
  split; [vm_compute; reflexivity|]. split; [vm_compute; reflexivity|].
  exact Hagain.
Defined.

Lemma keyless_descriptor_never_yields_witness :
  let ct := Examples.keyless in
  let s := Examples.start ct [OType 0] (Fixtures.Raw 0) in
  let res := Calculator._calculate ct 1 (DInst (Inst 0 [])) s in
  Descriptor.descriptor_key Examples.keyless_class (Inst 0 []) = None
  ∧ res.1 = Raise (ValueError KeyNotProvided)
  ∧ Calculator.trace res.2
    = [Calculator.Invoke (Inst 0 [])
         (Fixtures.Kekulized (Fixtures.RemoveHs (Fixtures.Kekulized (Fixtures.Raw 0))))
         []]
  ∧ Calculator.cache res.2 = ∅.
Proof.
  intros ct s res. split; [reflexivity|].
  destruct (keyless_descriptor_never_yields ct 0 (Inst 0 []) Examples.keyless_class
              s (@Molecule.__init__ Fixtures.symbolic (Fixtures.Raw 0))
              eq_refl eq_refl)
    as [_ Hcall].
  destruct (Hcall eq_refl eq_refl) as (Hr & Ht & Hc).
  split; [exact Hr|]. split; [exact Ht|exact Hc].
Defined.

Lemma key_dependency_edge_cases_witness :
  let ct := Fixtures.registry in
  let s := Examples.start ct [] (Fixtures.Raw 0) in
  Calculator.cache s !! Key.Key 0 [PInt 1] = None
  ∧ Calculator._calculate ct 1 (DKey (Key.Key 0 [PInt 1])) s
    = (Raise (ValueError CannotCreate), s)
  ∧ Calculator._calculate ct 1 (DKey (Key.Key 9 [PInt 1])) s
    = (Raise AttributeError, s).
Proof.
  intros ct s. split; [reflexivity|]. split.
  - destruct (key_dependency_edge_cases ct 0 (Key.Key 0 [PInt 1]) s) as [_ Hmiss].
    exact (Hmiss eq_refl eq_refl).
  - destruct (key_dependency_edge_cases ct 0 (Key.Key 9 [PInt 1]) s) as [_ Hmiss].
    exact (Hmiss eq_refl).
Defined.

Lemma create_then_default_key_witness :
  let ct := Fixtures.unkeyed in
  let k := Key.Key 0 [PInt 1] in
  let s := Examples.start ct [] (Fixtures.Raw 0) in
  c_descriptor_key Fixtures.parametrised = None
  ∧ Key_create ct k s = (Ok (Inst 0 [OVal (PInt 1)]), s)
  ∧ Descriptor.descriptor_key Fixtures.parametrised (Inst 0 [OVal (PInt 1)]) ≠ Some k.
Proof.
  intros ct k s. split; [reflexivity|].
  destruct (create_then_default_key ct k Fixtures.parametrised s
              eq_refl eq_refl eq_refl) as [Hc Hiff].
  split; [exact Hc|]. intros Heq. apply Hiff in Heq. discriminate Heq.
Defined.

Lemma cache_only_grows_witness :
  let ct := Fixtures.shared in
  let s := Examples.start ct [OType 0; OType 1] (Fixtures.Raw 0) in
  let s1 := (Calculator._calculate ct 1 (DInst (Inst 0 [])) s).2 in
  Calculator.cache s1 !! Key.Key 0 [] = Some (PInt 42)
  ∧ is_Some (Calculator.cache
               (Calculator._calculate ct 2 (DInst (Inst 1 [])) s1).2
             !! Key.Key 0 []).
Proof.
  intros ct s s1.
  assert (Calculator.cache s1 !! Key.Key 0 [] = Some (PInt 42)) as Hc
    by (vm_compute; reflexivity).
  split; [exact Hc|].
  destruct (cache_only_grows ct 2 0 (DInst (Inst 1 [])) s1
              (@Calculator.__call__ Fixtures.symbolic (Fixtures.Raw 0) (Calculator.calc s)).1
              (Calculator.calc s) (Key.Key 0 [])) as [Hgrow _].
  apply Hgrow. exists (PInt 42). exact Hc.
Defined.

Lemma pairs_in_registration_order_witness :
  let ct := Fixtures.shared in
  let self := (Calculator.__init__ ct [OType 2; OType 0; OType 1]).2 in
  let g := (Calculator.__call__ (Fixtures.Raw 0) self).1 in
  let c := (Calculator.__call__ (Fixtures.Raw 0) self).2 in
  let res := Calculator.consume ct 2 3 g c in
  res.1.1.2 = Ok ()
  ∧ res.1.1.1.*1 = Naming.name_of ct <$> [Inst 2 []; Inst 0 []; Inst 1 []]
  ∧ Calculator.pending res.1.2 = [].
Proof.
  intros ct self g c res.
  assert (Calculator.consume ct 2 3 g c = (res.1.1.1, Ok (), res.1.2, res.2))
    as Heq by (vm_compute; reflexivity).
  destruct (pairs_in_registration_order ct 2 3 g c _ _ _ _ Heq)
    as (Hnames & _ & Hok).
  split; [vm_compute; reflexivity|]. split; [exact Hnames|].
  destruct (Hok eq_refl) as [_ Hp]. exact Hp.
Defined.

Lemma duplicate_shares_cached_value_witness :
  let ct := Fixtures.probe in
  let self := (Calculator.__init__ ct [OType 0; OType 0]).2 in
  let g := (Calculator.__call__ (Fixtures.Raw 5) self).1 in
  let c := (Calculator.__call__ (Fixtures.Raw 5) self).2 in
  let res := Calculator.next ct 1 g c in
  Calculator.pending g = [Inst 0 []; Inst 0 []]
  ∧ res.1.1 = Ok ("T07", PInt 5)
  ∧ (Calculator.next ct 1 res.1.2 res.2).1.1 = Ok ("T07", PInt 5)
  ∧ Calculator.g_trace (Calculator.next ct 1 res.1.2 res.2).1.2
    = Calculator.g_trace res.1.2.
Proof.
  intros ct self g c res.
  assert (Calculator.next ct 1 g c = (Ok ("T07", PInt 5), res.1.2, res.2)) as Heq
    by (vm_compute; reflexivity).
  pose proof (duplicate_shares_cached_value ct 1 0 g c (Inst 0 []) [] _ _ _
                eq_refl Heq) as Hagain.
  split; [reflexivity|]. split; [vm_compute; reflexivity|].
  rewrite Hagain. split; reflexivity.
Defined.

Lemma descriptor_call_is_fresh_pass_witness :
  Descriptor.class_of Fixtures.probe (Inst 0 []) = Some Fixtures.probing
  ∧ Descriptor_call Fixtures.probe 1 (Inst 0 []) (Fixtures.Raw 5) = Ok (PInt 5).
Proof.
  split; [reflexivity|].
  rewrite (descriptor_call_is_fresh_pass Fixtures.probe 1 (Inst 0 [])
             Fixtures.probing (Fixtures.Raw 5) eq_refl).
  reflexivity.
Defined.

Lemma calculate_fuel_monotone_witness :
  let ct := Fixtures.shared in
  let s := Examples.start ct [OType 1] (Fixtures.Raw 0) in
  (Calculator._calculate ct 2 (DInst (Inst 1 [])) s).1 = Ok (PInt 43)
  ∧ Calculator._calculate ct (2 + 40) (DInst (Inst 1 [])) s
    = Calculator._calculate ct 2 (DInst (Inst 1 [])) s.
Proof.
  intros ct s.
  assert ((Calculator._calculate ct 2 (DInst (Inst 1 [])) s).1 = Ok (PInt 43))
    as Hv by (vm_compute; reflexivity).
  split; [exact Hv|].
  apply (calculate_fuel_monotone ct 2 40 (DInst (Inst 1 [])) s).
  rewrite Hv. discriminate.
Defined.

Lemma finished_generator_stops_witness :
  let ct := Fixtures.shared in
  let self := (Calculator.__init__ ct [OType 2; OType 0; OType 1]).2 in
  let g := (Calculator.__call__ (Fixtures.Raw 0) self).1 in
  let c := (Calculator.__call__ (Fixtures.Raw 0) self).2 in
  let res := Calculator.consume ct 2 3 g c in
  (length (Calculator.pending g) ≤ 3)%nat
  ∧ Calculator.next ct 2 res.1.2 res.2 = (Raise StopIteration, res.1.2, res.2).
Proof.
  intros ct self g c res.
  assert (length (Calculator.pending g) ≤ 3)%nat as Hlen by (vm_compute; lia).
  split; [exact Hlen|].
  apply (finished_generator_stops ct 2 2 3 g c res.1.1.1 res.1.1.2 res.1.2 res.2).
  - vm_compute; reflexivity.
  - right. exact Hlen.
Defined.
